(** * Classical ciphers and cryptanalysis toolkit: shallow embedding

    The Python modules [caesar], [affine], [atbash], [august], [vigenere],
    [beaufort], [autokey], [railfence], [route], [myszkowski] and [ngram]
    are embedded as Rocq functions, one [Module] per Python module, and the
    properties of the natural-language specification are settled on them.

    Texts are ASCII strings (the toolkit's alphabet is the 26 Latin
    letters); a Python [str] is a [list ascii], a Python [int] is a [Z],
    and a Python exception is the [Raise] case of [result]. *)

From Stdlib Require Import ZArith List Ascii String Lia QArith.
From stdpp Require Import base option list gmap strings sorting.
From Equations Require Import Equations.

Local Open Scope Z_scope.

(** ** Python primitives shared by every module *)

Module Py.

Inductive exn : Set :=
| ValueError
| IndexError
| ZeroDivisionError.

Inductive result (A : Type) : Type :=
| Ok (a : A)
| Raise (e : exn).
Arguments Ok {A} a.
Arguments Raise {A} e.

Definition result_bind {A B} (f : A → result B) (m : result A) : result B :=
  match m with
  | Ok a => f a
  | Raise e => Raise e
  end.

#[export] Instance result_ret : MRet result := λ A a, Ok a.
#[export] Instance result_mbind : MBind result := λ A B f m, result_bind f m.
#[export] Instance result_fmap : FMap result :=
  λ A B f m, result_bind (λ a, Ok (f a)) m.

(** A [for] loop whose body may raise: the state is threaded through the
    iterations and the first exception aborts the loop. *)
Fixpoint for_each {A S} (body : S → A → result S) (items : list A) (s : S)
  : result S :=
  match items with
  | [] => Ok s
  | x :: rest => s' ← body s x; for_each body rest s'
  end.

Abbreviation str := (list ascii).

(** [for x in items: acc.append(f(x))], also [result += f(x)] on strings. *)
Definition append_each {A B} (f : A → B) (items : list A) (acc : list B)
  : list B :=
  fold_left (λ acc x, acc ++ [f x]) items acc.

Definition ord (c : ascii) : Z := Z.of_N (N_of_ascii c).
Definition chr (z : Z) : ascii := ascii_of_N (Z.to_N z).

Definition len {A} (l : list A) : Z := Z.of_nat (length l).

(** [str.isupper], [str.islower], [str.isalpha], [str.isalnum] on one
    character of ASCII text, where the letters are [A-Z] and [a-z]; the
    codes from 128 on, which ASCII text does not contain, count as
    non-letters. *)
Definition isupper (c : ascii) : bool := (65 <=? ord c) && (ord c <=? 90).
Definition islower (c : ascii) : bool := (97 <=? ord c) && (ord c <=? 122).
Definition isalpha (c : ascii) : bool := isupper c || islower c.
Definition isdigit (c : ascii) : bool := (48 <=? ord c) && (ord c <=? 57).
Definition isalnum (c : ascii) : bool := isalpha c || isdigit c.

Definition upper (c : ascii) : ascii :=
  if islower c then chr (ord c - 32) else c.
Definition lower (c : ascii) : ascii :=
  if isupper c then chr (ord c + 32) else c.

(** The same methods on a whole string; [''.isalpha()] is [False]. *)
Definition str_upper (s : str) : str := upper <$> s.
Definition str_isalpha (s : str) : bool :=
  match s with
  | [] => false
  | _ => forallb isalpha s
  end.

(** [a % b] and [a // b]: floor semantics, [ZeroDivisionError] on [b = 0]. *)
Definition pymod (a b : Z) : result Z :=
  if b =? 0 then Raise ZeroDivisionError else Ok (a mod b).
Definition floordiv (a b : Z) : result Z :=
  if b =? 0 then Raise ZeroDivisionError else Ok (a / b).

(** [l[i]]: a negative index counts from the end, an index out of range
    raises [IndexError]. *)
Definition getitem {A} (l : list A) (i : Z) : result A :=
  let j := if i <? 0 then i + len l else i in
  if (j <? 0) || (len l <=? j) then Raise IndexError
  else match l !! Z.to_nat j with
       | Some x => Ok x
       | None => Raise IndexError
       end.

(** [l[i] = x] on a list. *)
Definition setitem {A} (l : list A) (i : Z) (x : A) : result (list A) :=
  let j := if i <? 0 then i + len l else i in
  if (j <? 0) || (len l <=? j) then Raise IndexError
  else Ok (<[Z.to_nat j := x]> l).

(** [range(a, b)] and [range(a, b, -1)]. *)
Definition range (a b : Z) : list Z := seqZ a (b - a).
Definition range_down (a b : Z) : list Z := (λ k, a - k) <$> seqZ 0 (a - b).

(** [range(a, b, step)]: a zero step raises [ValueError]. *)
Definition range_step (a b step : Z) : result (list Z) :=
  if step =? 0 then Raise ValueError
  else if 0 <? step then
    Ok ((λ k, a + k * step) <$> seqZ 0 ((b - a + step - 1) / step))
  else
    Ok ((λ k, a + k * step) <$> seqZ 0 ((a - b - step - 1) / (- step))).

(** [enumerate(l)]. *)
Definition enumerate {A} (l : list A) : list (Z * A) :=
  zip (range 0 (len l)) l.

(** [s[a:b]] with step 1: negative bounds count from the end, then both
    bounds are clamped to [0, len s]. *)
Definition clamp_index (n i : Z) : Z :=
  let j := if i <? 0 then i + n else i in
  Z.max 0 (Z.min n j).
Definition slice {A} (s : list A) (a b : Z) : list A :=
  let a' := clamp_index (len s) a in
  let b' := clamp_index (len s) b in
  take (Z.to_nat (b' - a')) (drop (Z.to_nat a') s).

(** Case analysis on a computed value that remembers the equation. *)
Definition inspect {A} (a : A) : {b : A | a = b} := exist _ a eq_refl.

(** A literal. *)
Definition lit (s : string) : str := list_ascii_of_string s.

End Py.

Import Py.

(** ** caesar.py *)

Module Caesar.

Definition shift_char (shift : Z) (char : ascii) : ascii :=
  if isalpha char then
    let ascii_base := if isupper char then ord "A" else ord "a" in
    let shifted := (ord char - ascii_base + shift) mod 26 in
    chr (ascii_base + shifted)
  else char.

Definition encrypt (text : str) (shift : Z) : str :=
  append_each (shift_char shift) text [].

Definition decrypt (text : str) (shift : Z) : str :=
  encrypt text (- shift).

End Caesar.

(** ** atbash.py *)

Module Atbash.

Definition mirror_char (char : ascii) : ascii :=
  if isalpha char then
    if isupper char then chr (ord "Z" - (ord char - ord "A"))
    else chr (ord "z" - (ord char - ord "a"))
  else char.

Definition encrypt (text : str) : str :=
  append_each mirror_char text [].

Definition decrypt (text : str) : str := encrypt text.

End Atbash.

(** ** august.py *)

Module August.

(** Loop state: the output built so far and the running shift. *)
Definition encrypt_step (st : str * Z) (char : ascii) : str * Z :=
  let '(result, shift) := st in
  if isalpha char then
    let ascii_base := if isupper char then ord "A" else ord "a" in
    let shifted := (ord char - ascii_base + shift) mod 26 in
    (result ++ [chr (ascii_base + shifted)], shift + 1)
  else (result ++ [char], shift).

Definition encrypt (text : str) (initial_shift : Z) : str :=
  fst (fold_left encrypt_step text ([], initial_shift)).

Definition decrypt_step (st : str * Z) (char : ascii) : str * Z :=
  let '(result, shift) := st in
  if isalpha char then
    let ascii_base := if isupper char then ord "A" else ord "a" in
    let shifted := (ord char - ascii_base - shift) mod 26 in
    (result ++ [chr (ascii_base + shifted)], shift + 1)
  else (result ++ [char], shift).

Definition decrypt (text : str) (initial_shift : Z) : str :=
  fst (fold_left decrypt_step text ([], initial_shift)).

End August.

(** ** affine.py *)

Module Affine.

(** [while b: a, b = b, a % b]. *)
Equations? gcd (a b : Z) : Z by wf (Z.abs_nat b) lt :=
  gcd a b with Z.eq_dec b 0 => {
    | left _ := a;
    | right _ := gcd b (a mod b) }.
Proof.
  destruct (Z_lt_ge_dec 0 b).
  - pose proof (Z.mod_pos_bound a b ltac:(lia)). lia.
  - pose proof (Z.mod_neg_bound a b ltac:(lia)). lia.
Qed.

(** The nested helper of [mod_inverse]; the result is [(gcd, x, y)]. *)
Equations? extended_gcd (a b : Z) : Z * Z * Z by wf (Z.abs_nat a) lt :=
  extended_gcd a b with Z.eq_dec a 0 => {
    | left _ := (b, 0, 1);
    | right _ :=
        let '(g, x1, y1) := extended_gcd (b mod a) a in
        let x := y1 - (b / a) * x1 in
        let y := x1 in
        (g, x, y) }.
Proof.
  destruct (Z_lt_ge_dec 0 a).
  - pose proof (Z.mod_pos_bound b a ltac:(lia)). lia.
  - pose proof (Z.mod_neg_bound b a ltac:(lia)). lia.
Qed.

Definition mod_inverse (a m : Z) : result Z :=
  if negb (gcd a m =? 1) then Raise ValueError
  else
    let '(_, x, _) := extended_gcd a m in
    pymod x m.

Definition encrypt_char (a b : Z) (char : ascii) : ascii :=
  if isalpha char then
    let is_upper := isupper char in
    let x := ord (upper char) - ord "A" in
    let encrypted_x := (a * x + b) mod 26 in
    let encrypted_char := chr (encrypted_x + ord "A") in
    if is_upper then encrypted_char else lower encrypted_char
  else char.

Definition encrypt (text : str) (a b : Z) : result str :=
  if negb (gcd a 26 =? 1) then Raise ValueError
  else Ok (append_each (encrypt_char a b) text []).

Definition decrypt_char (a_inv b : Z) (char : ascii) : ascii :=
  if isalpha char then
    let is_upper := isupper char in
    let y := ord (upper char) - ord "A" in
    let decrypted_y := (a_inv * (y - b)) mod 26 in
    let decrypted_char := chr (decrypted_y + ord "A") in
    if is_upper then decrypted_char else lower decrypted_char
  else char.

Definition decrypt (text : str) (a b : Z) : result str :=
  if negb (gcd a 26 =? 1) then Raise ValueError
  else
    a_inv ← mod_inverse a 26;
    Ok (append_each (decrypt_char a_inv b) text []).

End Affine.

(** ** vigenere.py *)

Module Vigenere.

(** Loop state of [prepare_key]: the key built so far and [key_index]. *)
Definition prepare_key_step (key : str) (st : str * Z) (char : ascii)
  : result (str * Z) :=
  let '(key_repeated, key_index) := st in
  if isalpha char then
    i ← pymod key_index (len key);
    k ← getitem key i;
    Ok (key_repeated ++ [k], key_index + 1)
  else Ok (key_repeated ++ [char], key_index).

Definition prepare_key (text key : str) : result str :=
  let key := str_upper key in
  fst <$> for_each (prepare_key_step key) text ([], 0).

Definition encrypt_step (result : str) (p : ascii * ascii) : str :=
  let '(text_char, key_char) := p in
  if isalpha text_char then
    let is_upper := isupper text_char in
    let text_num := ord (upper text_char) - ord "A" in
    let key_num := ord (upper key_char) - ord "A" in
    let encrypted_num := (text_num + key_num) mod 26 in
    let encrypted_char := chr (encrypted_num + ord "A") in
    result ++ [if is_upper then encrypted_char else lower encrypted_char]
  else result ++ [text_char].

Definition encrypt (text key : str) : result str :=
  key ← prepare_key text key;
  Ok (fold_left encrypt_step (zip text key) []).

Definition decrypt_step (result : str) (p : ascii * ascii) : str :=
  let '(text_char, key_char) := p in
  if isalpha text_char then
    let is_upper := isupper text_char in
    let text_num := ord (upper text_char) - ord "A" in
    let key_num := ord (upper key_char) - ord "A" in
    let decrypted_num := (text_num - key_num) mod 26 in
    let decrypted_char := chr (decrypted_num + ord "A") in
    result ++ [if is_upper then decrypted_char else lower decrypted_char]
  else result ++ [text_char].

Definition decrypt (text key : str) : result str :=
  key ← prepare_key text key;
  Ok (fold_left decrypt_step (zip text key) []).

End Vigenere.

(** ** beaufort.py *)

Module Beaufort.

Definition prepare_key_step (key : str) (st : str * Z) (char : ascii)
  : result (str * Z) :=
  let '(key_repeated, key_index) := st in
  if isalpha char then
    i ← pymod key_index (len key);
    k ← getitem key i;
    Ok (key_repeated ++ [k], key_index + 1)
  else Ok (key_repeated ++ [char], key_index).

Definition prepare_key (text key : str) : result str :=
  let key := str_upper key in
  fst <$> for_each (prepare_key_step key) text ([], 0).

Definition beaufort_step (result : str) (p : ascii * ascii) : str :=
  let '(text_char, key_char) := p in
  if isalpha text_char then
    let is_upper := isupper text_char in
    let text_num := ord (upper text_char) - ord "A" in
    let key_num := ord (upper key_char) - ord "A" in
    let beaufort_num := (key_num - text_num) mod 26 in
    let beaufort_char := chr (beaufort_num + ord "A") in
    result ++ [if is_upper then beaufort_char else lower beaufort_char]
  else result ++ [text_char].

Definition beaufort (text key : str) : result str :=
  key ← prepare_key text key;
  Ok (fold_left beaufort_step (zip text key) []).

Definition encrypt := beaufort.
Definition decrypt := beaufort.

End Beaufort.

(** ** autokey.py *)

Module Autokey.

(** Loop state of [prepare_key]: the key list and [text_index]; both
    branches of the source's [if] append the same character. *)
Definition prepare_key_step (text : str) (st : str * Z) (i : Z)
  : result (str * Z) :=
  let '(key, text_index) := st in
  c ← getitem text text_index;
  if isalpha c then
    c' ← getitem text text_index;
    Ok (key ++ [c'], text_index + 1)
  else
    c' ← getitem text text_index;
    Ok (key ++ [c'], text_index + 1).

Definition prepare_key (text priming_key : str) : result str :=
  let priming_key := str_upper priming_key in
  let text := str_upper text in
  fst <$> for_each (prepare_key_step text)
            (range (len priming_key) (len text)) (priming_key, 0).

Definition encrypt_step (result : str) (p : ascii * ascii) : str :=
  let '(text_char, key_char) := p in
  if isalpha text_char then
    let is_upper := isupper text_char in
    let text_num := ord (upper text_char) - ord "A" in
    let key_num := ord (upper key_char) - ord "A" in
    let encrypted_num := (text_num + key_num) mod 26 in
    let encrypted_char := chr (encrypted_num + ord "A") in
    result ++ [if is_upper then encrypted_char else lower encrypted_char]
  else result ++ [text_char].

Definition encrypt (text priming_key : str) : result str :=
  key ← prepare_key text priming_key;
  Ok (fold_left encrypt_step (zip text key) []).

(** Loop state of [decrypt]: the output built so far and [text_index]. *)
Definition decrypt_step (priming_key key : str) (st : str * Z)
    (p : Z * ascii) : result (str * Z) :=
  let '(result, text_index) := st in
  let '(i, char) := p in
  if isalpha char then
    let is_upper := isupper char in
    let text_num := ord (upper char) - ord "A" in
    '(key_num, text_index) ←
      (if i <? len priming_key then
         k ← getitem key i;
         Ok (ord (upper k) - ord "A", text_index)
       else
         r ← getitem result text_index;
         Ok (ord (upper r) - ord "A", text_index + 1));
    let decrypted_num := (text_num - key_num) mod 26 in
    let decrypted_char := chr (decrypted_num + ord "A") in
    Ok (result ++ [if is_upper then decrypted_char else lower decrypted_char],
        text_index)
  else Ok (result ++ [char], text_index).

Definition decrypt (text priming_key : str) : result str :=
  let key := str_upper priming_key in
  fst <$> for_each (decrypt_step priming_key key) (enumerate text) ([], 0).

End Autokey.

(** ** railfence.py *)

Module RailFence.

(** The empty-cell sentinel of the fence, ['\n']. *)
Definition newline : ascii := "010"%char.

(** Loop state of [create_fence]: the fence, [rail] and [direction]. *)
Definition create_fence_step (text : str) (rails : Z)
    (st : list str * Z * Z) (i : Z) : result (list str * Z * Z) :=
  let '(fence, rail, direction) := st in
  c ← getitem text i;
  row ← getitem fence rail;
  row ← setitem row i c;
  fence ← setitem fence rail row;
  let direction :=
    if rail =? 0 then 1
    else if rail =? rails - 1 then -1
    else direction in
  Ok (fence, rail + direction, direction).

Definition create_fence (text : str) (rails : Z) : result (list str) :=
  let fence := replicate (Z.to_nat rails) (replicate (length text) newline) in
  '(fence, _, _) ← for_each (create_fence_step text rails)
                     (range 0 (len text)) (fence, 0, 1);
  Ok fence.

(** The read-off loops of [encrypt]. *)
Definition read_off (fence : list str) : str :=
  fold_left
    (λ result rail,
       fold_left
         (λ result char,
            if negb (Ascii.eqb char newline) then result ++ [char] else result)
         rail result)
    fence [].

Definition encrypt (text : str) (rails : Z) : result str :=
  if rails <? 2 then Raise ValueError
  else if len text <? rails then Raise ValueError
  else
    fence ← create_fence text rails;
    Ok (read_off fence).

(** The marker of the zigzag cells in [decrypt], ['*']. *)
Definition star : ascii := "*"%char.

(** The marking loop of [decrypt]: state as in [create_fence]. *)
Definition mark_step (rails : Z) (st : list str * Z * Z) (i : Z)
  : result (list str * Z * Z) :=
  let '(fence, rail, direction) := st in
  row ← getitem fence rail;
  row ← setitem row i star;
  fence ← setitem fence rail row;
  let direction :=
    if rail =? 0 then 1
    else if rail =? rails - 1 then -1
    else direction in
  Ok (fence, rail + direction, direction).

(** The filling loops: state is the fence and [index]. *)
Definition fill_step (text : str) (i : Z) (st : list str * Z) (j : Z)
  : result (list str * Z) :=
  let '(fence, index) := st in
  row ← getitem fence i;
  cell ← getitem row j;
  if Ascii.eqb cell star then
    c ← getitem text index;
    row ← getitem fence i;
    row ← setitem row j c;
    fence ← setitem fence i row;
    Ok (fence, index + 1)
  else Ok (fence, index).

(** The reading loop: state is the output, [rail] and [direction]. *)
Definition read_step (fence : list str) (rails : Z) (st : str * Z * Z) (i : Z)
  : result (str * Z * Z) :=
  let '(result, rail, direction) := st in
  row ← getitem fence rail;
  c ← getitem row i;
  let direction :=
    if rail =? 0 then 1
    else if rail =? rails - 1 then -1
    else direction in
  Ok (result ++ [c], rail + direction, direction).

Definition decrypt (text : str) (rails : Z) : result str :=
  if rails <? 2 then Raise ValueError
  else if len text <? rails then Raise ValueError
  else
    (* Create an empty fence *)
    let fence := replicate (Z.to_nat rails) (replicate (length text) newline) in
    (* Mark the zigzag pattern *)
    '(fence, _, _) ← for_each (mark_step rails) (range 0 (len text)) (fence, 0, 1);
    (* Fill in the fence with the ciphertext *)
    '(fence, _) ←
      for_each
        (λ st i, for_each (fill_step text i) (range 0 (len text)) st)
        (range 0 rails) (fence, 0);
    (* Read off the plaintext *)
    '(result, _, _) ← for_each (read_step fence rails) (range 0 (len text)) ([], 0, 1);
    Ok result.

End RailFence.

(** ** route.py *)

Module Route.

Abbreviation coord := (Z * Z)%type.

(** The variables of the [while] loop of [spiral_inward]. *)
Record spiral_state : Type := SpiralState {
  sp_top : Z; sp_bottom : Z; sp_left : Z; sp_right : Z;
  sp_coordinates : list coord
}.

Definition spiral_cond (s : spiral_state) : bool :=
  (sp_top s <=? sp_bottom s) && (sp_left s <=? sp_right s).

(** One iteration of the loop body ([left_] and [right_] stand for the
    source's [left] and [right]). *)
Definition spiral_body (s : spiral_state) : spiral_state :=
  let '(SpiralState top bottom left_ right_ coordinates) := s in
  (* Move right *)
  let coordinates :=
    append_each (λ i, (top, i)) (range left_ (right_ + 1)) coordinates in
  let top := top + 1 in
  (* Move down *)
  let coordinates :=
    append_each (λ i, (i, right_)) (range top (bottom + 1)) coordinates in
  let right_ := right_ - 1 in
  let '(coordinates, bottom) :=
    if top <=? bottom then
      (* Move left *)
      (append_each (λ i, (bottom, i)) (range_down right_ (left_ - 1))
         coordinates,
       bottom - 1)
    else (coordinates, bottom) in
  let '(coordinates, left_) :=
    if left_ <=? right_ then
      (* Move up *)
      (append_each (λ i, (i, left_)) (range_down bottom (top - 1))
         coordinates,
       left_ + 1)
    else (coordinates, left_) in
  SpiralState top bottom left_ right_ coordinates.

Definition spiral_measure (s : spiral_state) : nat :=
  Z.to_nat (sp_bottom s - sp_top s + 1).

Lemma spiral_body_decreases (s : spiral_state) :
  spiral_cond s = true →
  (spiral_measure (spiral_body s) < spiral_measure s)%nat.
Proof.
  destruct s as [t b l r cs]. unfold spiral_cond, spiral_body, spiral_measure.
  simpl. intros H. apply andb_prop in H as [Ht Hl].
  apply Z.leb_le in Ht.
  destruct (t + 1 <=? b); destruct (l <=? r - 1); simpl; lia.
Qed.

(** [while top <= bottom and left <= right: body]. *)
Equations spiral_while (s : spiral_state) : spiral_state
  by wf (spiral_measure s) lt :=
  spiral_while s with inspect (spiral_cond s) => {
    | exist _ true Hcond := spiral_while (spiral_body s);
    | exist _ false _ := s }.
Next Obligation. by apply spiral_body_decreases. Qed.

Definition spiral_inward (rows cols : Z) : list coord :=
  sp_coordinates (spiral_while (SpiralState 0 (rows - 1) 0 (cols - 1) [])).

Definition spiral_outward (rows cols : Z) : list coord :=
  reverse (spiral_inward rows cols).

Definition snake_pattern (rows cols : Z) : list coord :=
  fold_left
    (λ coordinates i,
       if i mod 2 =? 0 then
         append_each (λ j, (i, j)) (range 0 cols) coordinates
       else
         append_each (λ j, (i, j)) (range_down (cols - 1) (-1)) coordinates)
    (range 0 rows) [].

Definition diagonal_pattern (rows cols : Z) : list coord :=
  fold_left
    (λ coordinates sum_idx,
       fold_left
         (λ coordinates i,
            let j := sum_idx - i in
            if (0 <=? j) && (j <? cols) then coordinates ++ [(i, j)]
            else coordinates)
         (range 0 rows) coordinates)
    (range 0 (rows + cols - 1)) [].

Definition create_grid (text : str) (rows cols : Z) : result (list str) :=
  (* Remove spaces and convert to uppercase *)
  let text := upper <$> filter (λ c, isalnum c = true) text in
  (* Pad text if necessary *)
  let padding := rows * cols - len text in
  let text :=
    if 0 <? padding then text ++ replicate (Z.to_nat padding) "X"%char
    else text in
  starts ← range_step 0 (len text) cols;
  Ok (append_each (λ i, slice text i (i + cols)) starts []).

(** The dictionary of pattern generators, and [d.get(name)] on it. *)
Definition pattern_funcs : list (string * (Z → Z → list coord)) :=
  [("spiral_in"%string, spiral_inward);
   ("spiral_out"%string, spiral_outward);
   ("snake"%string, snake_pattern);
   ("diagonal"%string, diagonal_pattern)].

Fixpoint dict_get {V} (name : string) (d : list (string * V)) : option V :=
  match d with
  | [] => None
  | (k, v) :: d => if String.eqb name k then Some v else dict_get name d
  end.

Definition encrypt (text : str) (rows cols : Z) (pattern : string)
  : result str :=
  if (rows <? 1) || (cols <? 1) then Raise ValueError
  else
    grid ← create_grid text rows cols;
    match dict_get pattern pattern_funcs with
    | None => Raise ValueError
    | Some pattern_func =>
        let coordinates := pattern_func rows cols in
        for_each
          (λ result '(row, col),
             r ← getitem grid row;
             c ← getitem r col;
             Ok (result ++ [c]))
          coordinates []
    end.

(** The cells of the grid of [decrypt] are strings, [''] at first. *)
Definition decrypt (text : str) (rows cols : Z) (pattern : string)
  : result str :=
  if (rows <? 1) || (cols <? 1) then Raise ValueError
  else if negb (rows * cols =? len text) then Raise ValueError
  else
    match dict_get pattern pattern_funcs with
    | None => Raise ValueError
    | Some pattern_func =>
        let coordinates := pattern_func rows cols in
        let grid := replicate (Z.to_nat rows) (replicate (Z.to_nat cols) []) in
        grid ←
          for_each
            (λ (grid : list (list str)) '((row, col), char),
               r ← getitem grid row;
               r ← setitem r col [char];
               setitem grid row r)
            (zip coordinates text) grid;
        (* result.extend(row) for each row, then ''.join(result) *)
        Ok (concat (fold_left (λ result row, result ++ row) grid []))
    end.

End Route.

(** ** myszkowski.py *)

Module Myszkowski.

(** [groups[char].append(i)] on the [defaultdict(list)], kept as an
    association list in insertion order. *)
Fixpoint group_append (groups : list (ascii * list Z)) (char : ascii) (i : Z)
  : list (ascii * list Z) :=
  match groups with
  | [] => [(char, [i])]
  | (k, v) :: rest =>
      if Ascii.eqb k char then (k, v ++ [i]) :: rest
      else (k, v) :: group_append rest char i
  end.

(** The order of [sorted(groups.items())]: the keys are distinct, so the
    items are ordered by their key letter alone. *)
Definition item_le (p q : ascii * list Z) : Prop := ord p.1 ≤ ord q.1.

#[export] Instance item_le_dec (p q : ascii * list Z) : Decision (item_le p q).
Proof. unfold item_le. apply _. Defined.

Definition get_column_groups (key : str) : list (ascii * list Z) :=
  let groups :=
    fold_left (λ groups '(i, char), group_append groups char i)
      (enumerate key) [] in
  merge_sort item_le groups.

(** Loop state of the fill loops of [decrypt]: the grid of cells (each
    cell a string, [''] at first) and [index]. *)
Definition fill_cell (text : str) (col : Z) (st : list (list str) * Z)
    (row : Z) : result (list (list str) * Z) :=
  let '(grid, index) := st in
  c ← getitem text index;
  r ← getitem grid row;
  r ← setitem r col [c];
  grid ← setitem grid row r;
  Ok (grid, index + 1).

Definition decrypt (text key : str) : result str :=
  let cols := len key in
  rows ← floordiv (len text) cols;
  let grid := replicate (Z.to_nat rows) (replicate (Z.to_nat cols) []) in
  let column_groups := get_column_groups key in
  '(grid, _) ←
    for_each
      (λ st '(_, columns),
         for_each
           (λ st col, for_each (fill_cell text col) (range 0 rows) st)
           columns st)
      column_groups (grid, 0);
  (* result.extend(row) for each row, then ''.join(result) *)
  Ok (concat (fold_left (λ result row, result ++ row) grid [])).

Definition prepare_text_and_key (text key : str) : result (str * str * Z) :=
  (* Remove spaces and convert to uppercase *)
  let text := upper <$> filter (λ c, isalnum c = true) text in
  let key := str_upper key in
  (* Calculate number of rows needed *)
  let cols := len key in
  rows ← floordiv (len text + cols - 1) cols;
  (* Pad text if necessary *)
  let padding := rows * cols - len text in
  let text :=
    if 0 <? padding then text ++ replicate (Z.to_nat padding) "X"%char
    else text in
  Ok (text, key, rows).

Definition create_grid (text key : str) : result (list str) :=
  '(text, key, rows) ← prepare_text_and_key text key;
  let cols := len key in
  starts ← range_step 0 (len text) cols;
  Ok (append_each (λ i, slice text i (i + cols)) starts []).

Definition encrypt (text key : str) : result str :=
  grid ← create_grid text key;
  let column_groups := get_column_groups key in
  for_each
    (λ result '(_, columns),
       for_each
         (λ result col,
            for_each
              (λ result row, c ← getitem row col; Ok (result ++ [c]))
              grid result)
         columns result)
    column_groups [].

End Myszkowski.

(** ** ngram.py *)

Module Ngram.

(** [sequences[seq].append(i)] or [sequences[seq] = [i]]. *)
Definition record (sequences : gmap str (list Z)) (seq : str) (i : Z)
  : gmap str (list Z) :=
  match sequences !! seq with
  | Some pos => <[seq := pos ++ [i]]> sequences
  | None => <[seq := [i]]> sequences
  end.

(** The inner loop of [find_repeated_sequences] for one length. *)
Definition scan (text : str) (length : Z) : gmap str (list Z) :=
  fold_left
    (λ sequences i,
       let seq := slice text i (i + length) in
       if str_isalpha seq then record sequences seq i else sequences)
    (range 0 (len text - length + 1)) ∅.

Definition find_repeated_sequences (text : str) (min_length max_length : Z)
  : gmap str (list Z) :=
  let text := str_upper text in
  fold_left
    (λ repeated_sequences length,
       (* dict.update: the new entries win *)
       filter (λ kv : str * list Z, 1 < len kv.2) (scan text length)
         ∪ repeated_sequences)
    (range min_length (max_length + 1)) ∅.

(** [Counter(text)]. *)
Definition Counter (text : str) : gmap ascii Z :=
  fold_left (λ counts c, <[c := default 0 (counts !! c) + 1]> counts) text ∅.

(** [a / b] on integers. The float result is represented by the exact
    quotient it is rounded from; a zero divisor raises. *)
Definition truediv (a b : Z) : result Q :=
  if b =? 0 then Raise ZeroDivisionError
  else Ok (inject_Z a / inject_Z b)%Q.

Definition index_of_coincidence (text : str) : result Q :=
  let text := filter (λ c, isalpha c = true) (str_upper text) in
  if len text <=? 1 then Ok 0%Q
  else
    let frequencies := Counter text in
    let n := len text in
    truediv (map_fold (λ _ f acc, acc + f * (f - 1)) 0 frequencies)
            (n * (n - 1)).

(** [re.findall(r'\b\w+\b', s)] on ASCII text: the maximal runs of word
    characters (letters, digits and the underscore), from left to right.
    [cur] is the run being read. *)
Definition isword (c : ascii) : bool := isalnum c || Ascii.eqb c "_".

Fixpoint findall_words (s cur : str) : list str :=
  match s with
  | [] => match cur with [] => [] | _ => [cur] end
  | c :: s =>
      if isword c then findall_words s (cur ++ [c])
      else match cur with
           | [] => findall_words s []
           | _ => cur :: findall_words s []
           end
  end.

(** [sep.join(parts)]. *)
Fixpoint join (sep : str) (parts : list str) : str :=
  match parts with
  | [] => []
  | [p] => p
  | p :: rest => p ++ sep ++ join sep rest
  end.

Definition get_ngrams (text : str) (n : Z) (as_word : bool)
  : result (list str) :=
  if n <? 1 then Raise ValueError
  else if as_word then
    let words := findall_words (lower <$> text) [] in
    if len words <? n then Ok []
    else Ok ((λ i, join (lit " ") (slice words i (i + n)))
               <$> range 0 (len words - n + 1))
  else
    let text := str_upper text in
    Ok ((λ i, slice text i (i + n)) <$> range 0 (len text - n + 1)).

End Ngram.

(** ** Vocabulary of the specification *)



(** The cells of a [rows × cols] grid. *)
Definition in_grid (rows cols : Z) (p : Z * Z) : Prop :=
  0 ≤ p.1 < rows ∧ 0 ≤ p.2 < cols.

(** A coordinate order: every cell of the grid exactly once, nothing else. *)
Definition covers_grid_once (rows cols : Z) (order : list (Z * Z)) : Prop :=
  NoDup order ∧ ∀ p, p ∈ order ↔ in_grid rows cols p.

(** A position list in strictly ascending order. *)
Definition strictly_ascending (pos : list Z) : Prop :=
  ∀ (i j : nat) (x y : Z), pos !! i = Some x → pos !! j = Some y →
    (i < j)%nat → x < y.


(** What [beaufort] does to one character of the text under one character
    of the prepared key. *)
Definition beaufort_char (text_char key_char : ascii) : ascii :=
  if isalpha text_char then
    let text_num := ord (upper text_char) - ord "A" in
    let key_num := ord (upper key_char) - ord "A" in
    let beaufort_char := chr ((key_num - text_num) mod 26 + ord "A") in
    if isupper text_char then beaufort_char else lower beaufort_char
  else text_char.

(** What Autokey [encrypt] does to one character of the text under one
    character of the prepared key. *)
Definition autokey_encrypt_char (text_char key_char : ascii) : ascii :=
  if isalpha text_char then
    let text_num := ord (upper text_char) - ord "A" in
    let key_num := ord (upper key_char) - ord "A" in
    let encrypted_char := chr ((text_num + key_num) mod 26 + ord "A") in
    if isupper text_char then encrypted_char else lower encrypted_char
  else text_char.


(** The rectangle of cells that the spiral loop has still to visit. *)
Definition spiral_rect (s : Route.spiral_state) (p : Z * Z) : Prop :=
  Route.sp_top s ≤ p.1 ≤ Route.sp_bottom s ∧
  Route.sp_left s ≤ p.2 ≤ Route.sp_right s.

(** The state of the loop of [RailFence.create_fence] once the first [i]
    characters of the text are placed: the fence keeps its shape, the
    columns from [i] on are still empty, the rail pointer is on a rail, and
    what a read-off would give is the placed characters other than the
    sentinel. *)
Definition fence_inv (text : str) (rails : Z) (i : nat)
    (st : list str * Z * Z) : Prop :=
  let '(fence, rail, direction) := st in
  length fence = Z.to_nat rails ∧
  (∀ (r : nat) (row : str), fence !! r = Some row →
     length row = length text ∧
     ∀ j : nat, (i ≤ j < length text)%nat → row !! j = Some RailFence.newline) ∧
  0 ≤ rail < rails ∧
  (direction = 1 ∨ direction = -1) ∧
  fence ≫= filter (λ c, c ≠ RailFence.newline)
    ≡ₚ filter (λ c, c ≠ RailFence.newline) (take i text).


(** The code of the first letter of the case of [c]: [ord('A')] for an
    upper-case character, [ord('a')] otherwise. *)
Definition case_base (c : ascii) : Z := if isupper c then 65 else 97.

(** The progressive shifting of August: each character is shifted as by
    Caesar, by [sign] times the running shift, and the running shift grows
    by one after every letter. *)
Fixpoint progressive (sign shift : Z) (text : str) : str :=
  match text with
  | [] => []
  | c :: text =>
      Caesar.shift_char (sign * shift) c
        :: progressive sign (if isalpha c then shift + 1 else shift) text
  end.



(** The start offsets at which [seq] occurs in [text], in ascending
    order. *)
Definition occurrences (text seq : str) : list Z :=
  filter (λ i, slice text i (i + len seq) = seq)
    (range 0 (len text - len seq + 1)).

(** The position list recorded for a sequence: none while it has not
    occurred. *)
Definition recorded (pos : list Z) : option (list Z) :=
  match pos with
  | [] => None
  | _ => Some pos
  end.

(** Grids of the transposition ciphers: the cell at [(r, c)], a grid of
    [R] rows of [C] cells, the assignment [grid[r][c] = v], and a run of
    such assignments. *)
Definition grid_cell {A} (grid : list (list A)) (r c : Z) : option A :=
  match grid !! Z.to_nat r with
  | Some row => row !! Z.to_nat c
  | None => None
  end.

Definition grid_shape {A} (R C : Z) (grid : list (list A)) : Prop :=
  len grid = R ∧ ∀ (r : nat) (row : list A), grid !! r = Some row → len row = C.

Definition grid_write {A} (grid : list (list A)) (p : Z * Z) (v : A)
  : list (list A) :=
  match grid !! Z.to_nat p.1 with
  | Some row => <[Z.to_nat p.1 := <[Z.to_nat p.2 := v]> row]> grid
  | None => grid
  end.

Definition write_all {A} (grid : list (list A)) (cells : list (Z * Z))
    (vals : list A) : list (list A) :=
  fold_left (λ g pv, grid_write g pv.1 pv.2) (zip cells vals) grid.

(** The text a grid cipher works on: the alphanumeric characters of the
    input, upper-cased, followed by [pad] characters ['X']. *)
Definition canonical (text : str) : str :=
  upper <$> filter (λ c, isalnum c = true) text.

Definition padded (text : str) (pad : Z) : str :=
  canonical text ++ replicate (Z.to_nat pad) "X"%char.


(** A grid of width [C] stored row by row: the position of cell [p] in the
    text, and "[vals] are the characters of [P] at [cells], in order". *)
Definition cell_index (C : Z) (p : Z * Z) : nat := Z.to_nat (p.1 * C + p.2).

Definition read_along (C : Z) (P : str) (cells : list (Z * Z)) (vals : str)
  : Prop :=
  Forall2 (λ p v, P !! cell_index C p = Some v) cells vals.


(** The rail pointer of the zigzag loops of Rail Fence: the update of
    [(rail, direction)] at the end of an iteration, and the pointer before
    column [k]. *)
Definition zig_next (rails : Z) (rd : Z * Z) : Z * Z :=
  let '(rail, direction) := rd in
  let direction :=
    if rail =? 0 then 1
    else if rail =? rails - 1 then -1
    else direction in
  (rail + direction, direction).

Definition zig_state (rails : Z) (k : nat) : Z * Z :=
  Nat.iter k (zig_next rails) (0, 1).

(** The cells of the zigzag over [n] columns, column by column. *)
Definition zigzag_cells (rails : Z) (n : nat) : list (Z * Z) :=
  (λ k, ((zig_state rails k).1, Z.of_nat k)) <$> seq 0 n.

(** All cells of a grid row by row, and the zigzag cells in that order:
    the order in which [encrypt] reads them and [decrypt] fills them. *)
Definition row_major (R C : Z) : list (Z * Z) :=
  range 0 R ≫= (λ i, (λ j, (i, j)) <$> range 0 C).

Definition rail_cells (rails : Z) (n : nat) : list (Z * Z) :=
  filter (λ p, p ∈ zigzag_cells rails n) (row_major rails (Z.of_nat n)).

(** The same order as positions of the text, the text seen as a grid of
    one row. *)
Definition rail_order (rails : Z) (n : nat) : list (Z * Z) :=
  (λ p, (0, p.2)) <$> rail_cells rails n.

(** The columns among the first [n] whose key letter is [ch], in ascending
    order. *)
Definition key_columns (key : str) (n : Z) (ch : ascii) : list Z :=
  filter (λ i, key !! Z.to_nat i = Some ch) (range 0 n).

(** * Facts about the Python primitives *)

Section PyFacts.

Context {A B S : Type}.

Lemma append_each_spec (f : A → B) (items : list A) (acc : list B) :
  append_each f items acc = acc ++ (f <$> items).
Proof.
  unfold append_each. revert acc.
  induction items as [|x items IH]; intros acc; simpl.
  - by rewrite app_nil_r.
  - rewrite IH, <- app_assoc. done.
Qed.

(** A loop that only appends is a concatenation. *)
Lemma fold_left_append (f : list B → A → list B) (g : A → list B)
    (items : list A) (acc : list B) :
  (∀ acc x, f acc x = acc ++ g x) →
  fold_left f items acc = acc ++ (items ≫= g).
Proof.
  intros Hf. revert acc.
  induction items as [|x items IH]; intros acc; simpl.
  - by rewrite app_nil_r.
  - rewrite IH, Hf, <- app_assoc. done.
Qed.

(** Invariant rule for a [for] loop over a list: the invariant speaks
    about the items already consumed. *)
Lemma for_each_inv (body : S → A → result S) (Inv : list A → S → Prop)
    (items : list A) (s : S) :
  Inv [] s →
  (∀ seen x s, seen ++ [x] `prefix_of` items → Inv seen s →
               ∃ s', body s x = Ok s' ∧ Inv (seen ++ [x]) s') →
  ∃ s', for_each body items s = Ok s' ∧ Inv items s'.
Proof.
  intros H0 Hstep.
  assert (G : ∀ rest seen s, seen ++ rest = items → Inv seen s →
              ∃ s', for_each body rest s = Ok s' ∧ Inv items s').
  { induction rest as [|x rest IH]; intros seen s0 Heq Hinv; simpl.
    - rewrite app_nil_r in Heq. subst. eauto.
    - destruct (Hstep seen x s0) as (s1 & Hb & Hinv1); [|done|].
      { exists rest. by rewrite <- app_assoc. }
      rewrite Hb. simpl. apply (IH (seen ++ [x])); [|done].
      by rewrite <- app_assoc. }
  by apply (G items []).
Qed.

Lemma fold_left_inv (f : S → A → S) (Inv : list A → S → Prop)
    (items : list A) (s : S) :
  Inv [] s →
  (∀ seen x s, seen ++ [x] `prefix_of` items → Inv seen s →
               Inv (seen ++ [x]) (f s x)) →
  Inv items (fold_left f items s).
Proof.
  intros H0 Hstep.
  assert (G : ∀ rest seen s, seen ++ rest = items → Inv seen s →
              Inv items (fold_left f rest s)).
  { induction rest as [|x rest IH]; intros seen s0 Heq Hinv; simpl.
    - rewrite app_nil_r in Heq. by subst.
    - apply (IH (seen ++ [x])); [by rewrite <- app_assoc|].
      apply Hstep; [|done]. exists rest. by rewrite <- app_assoc. }
  by apply (G items []).
Qed.

End PyFacts.

Lemma elem_of_range (a b x : Z) : x ∈ range a b ↔ a ≤ x < b.
Proof. unfold range. rewrite elem_of_seqZ. lia. Qed.

Lemma elem_of_range_down (a b x : Z) : x ∈ range_down a b ↔ b < x ≤ a.
Proof.
  unfold range_down. rewrite list_elem_of_fmap. split.
  - intros (k & -> & Hk). apply elem_of_seqZ in Hk. lia.
  - intros H. exists (a - x). split; [lia|]. apply elem_of_seqZ. lia.
Qed.

Lemma length_range (a b : Z) : length (range a b) = Z.to_nat (b - a).
Proof. apply length_seqZ. Qed.

Lemma NoDup_range (a b : Z) : NoDup (range a b).
Proof. apply NoDup_seqZ. Qed.

Lemma NoDup_range_down (a b : Z) : NoDup (range_down a b).
Proof.
  unfold range_down. apply NoDup_fmap_2; [|apply NoDup_seqZ].
  intros x y. lia.
Qed.

Lemma range_prefix_snoc (a b : Z) (seen : list Z) (x : Z) :
  seen ++ [x] `prefix_of` range a b →
  seen = range a x ∧ a ≤ x < b.
Proof.
  intros [rest Hrest]. unfold range in *.
  assert (Hx : seqZ a (b - a) !! length seen = Some x).
  { rewrite Hrest, <- app_assoc. simpl. by apply list_lookup_middle. }
  apply lookup_seqZ in Hx as [Hx Hlt]. split; [|lia].
  replace (b - a) with ((x - a) + (b - x)) in Hrest by lia.
  rewrite seqZ_app, <- app_assoc in Hrest by lia.
  apply app_inj_1 in Hrest as [Hseen _]; [done|].
  rewrite length_seqZ. lia.
Qed.

Lemma len_nonneg {A} (l : list A) : 0 ≤ len l.
Proof. unfold len. lia. Qed.

Lemma getitem_ok {A} (l : list A) (i : Z) :
  0 ≤ i < len l →
  ∃ x, getitem l i = Ok x ∧ l !! Z.to_nat i = Some x.
Proof.
  intros Hi. unfold getitem.
  destruct (Z.ltb_spec i 0); [lia|].
  destruct (Z.ltb_spec i 0); [lia|].
  destruct (Z.leb_spec (len l) i); [lia|]. simpl.
  destruct (l !! Z.to_nat i) as [x|] eqn:E; [eauto|].
  apply lookup_ge_None in E. unfold len in *. lia.
Qed.

Lemma setitem_ok {A} (l : list A) (i : Z) (x : A) :
  0 ≤ i < len l → setitem l i x = Ok (<[Z.to_nat i := x]> l).
Proof.
  intros Hi. unfold setitem.
  destruct (Z.ltb_spec i 0); [lia|].
  destruct (Z.ltb_spec i 0); [lia|].
  destruct (Z.leb_spec (len l) i); [lia|]. done.
Qed.

(** ** Characters *)

Lemma ord_range (c : ascii) : 0 ≤ ord c < 256.
Proof.
  unfold ord. pose proof (N_ascii_bounded c). lia.
Qed.

Lemma ord_chr (z : Z) : 0 ≤ z < 256 → ord (chr z) = z.
Proof.
  intros Hz. unfold ord, chr. rewrite N_ascii_embedding; lia.
Qed.

Lemma chr_ord (c : ascii) : chr (ord c) = c.
Proof. unfold ord, chr. rewrite N2Z.id. apply ascii_N_embedding. Qed.

Lemma isupper_spec (c : ascii) : isupper c = true ↔ 65 ≤ ord c ≤ 90.
Proof. unfold isupper. rewrite andb_true_iff, !Z.leb_le. lia. Qed.

Lemma islower_spec (c : ascii) : islower c = true ↔ 97 ≤ ord c ≤ 122.
Proof. unfold islower. rewrite andb_true_iff, !Z.leb_le. lia. Qed.

Lemma isalpha_spec (c : ascii) :
  isalpha c = true ↔ 65 ≤ ord c ≤ 90 ∨ 97 ≤ ord c ≤ 122.
Proof. unfold isalpha. rewrite orb_true_iff, isupper_spec, islower_spec. lia. Qed.

Lemma isupper_false (c : ascii) : isupper c = false ↔ ¬ 65 ≤ ord c ≤ 90.
Proof. rewrite <- isupper_spec. destruct (isupper c); naive_solver. Qed.

Lemma islower_false (c : ascii) : islower c = false ↔ ¬ 97 ≤ ord c ≤ 122.
Proof. rewrite <- islower_spec. destruct (islower c); naive_solver. Qed.

(** The letter with residue [n], in upper and in lower case. *)
Lemma upper_letter (n : Z) :
  0 ≤ n < 26 →
  isupper (chr (n + 65)) = true ∧ isalpha (chr (n + 65)) = true ∧
  upper (chr (n + 65)) = chr (n + 65) ∧ lower (chr (n + 65)) = chr (n + 97).
Proof.
  intros Hn.
  assert (Hu : isupper (chr (n + 65)) = true).
  { apply isupper_spec. rewrite ord_chr; lia. }
  assert (Hl : islower (chr (n + 65)) = false).
  { apply islower_false. rewrite ord_chr; lia. }
  unfold isalpha, upper, lower. rewrite Hu, Hl. repeat split.
  rewrite ord_chr by lia. f_equal. lia.
Qed.

Lemma lower_letter (n : Z) :
  0 ≤ n < 26 →
  isupper (chr (n + 97)) = false ∧ isalpha (chr (n + 97)) = true ∧
  upper (chr (n + 97)) = chr (n + 65).
Proof.
  intros Hn.
  assert (Hu : isupper (chr (n + 97)) = false).
  { apply isupper_false. rewrite ord_chr; lia. }
  assert (Hl : islower (chr (n + 97)) = true).
  { apply islower_spec. rewrite ord_chr; lia. }
  unfold isalpha, upper. rewrite Hu, Hl. repeat split.
  rewrite ord_chr by lia. f_equal. lia.
Qed.

(** The residue of a letter, as every cipher computes it. *)
Lemma residue_upper (c : ascii) :
  isupper c = true →
  isalpha c = true ∧ upper c = c ∧ 0 ≤ ord c - 65 < 26.
Proof.
  intros Hu. pose proof (proj1 (isupper_spec c) Hu).
  assert (Hl : islower c = false) by (apply islower_false; lia).
  unfold isalpha, upper. rewrite Hu, Hl. repeat split; lia.
Qed.

Lemma residue_lower (c : ascii) :
  isalpha c = true → isupper c = false →
  upper c = chr (ord c - 32) ∧ 0 ≤ ord c - 97 < 26 ∧
  ord (upper c) - 65 = ord c - 97.
Proof.
  intros Ha Hu. apply isalpha_spec in Ha. apply isupper_false in Hu.
  assert (Hl : islower c = true) by (apply islower_spec; lia).
  unfold upper. rewrite Hl. rewrite ord_chr by lia. repeat split; lia.
Qed.


(** * Substitution ciphers keep case and pass other characters through *)





Lemma mod26_bound (x : Z) : 0 ≤ x mod 26 < 26.
Proof. apply Z.mod_pos_bound. lia. Qed.















(** ** The key schedules *)

Lemma for_each_cons {A S} (body : S → A → result S) (x : A) (rest : list A)
    (s : S) :
  for_each body (x :: rest) s = body s x ≫= for_each body rest.
Proof. done. Qed.

Lemma bind_Ok {A B} (a : A) (f : A → result B) : Ok a ≫= f = f a.
Proof. done. Qed.



Lemma len_pos {A} (l : list A) : l ≠ [] → 0 < len l.
Proof. destruct l; [done|]. unfold len. simpl. lia. Qed.







(** Autokey: the prepared key is the priming key followed by the first
    [len text - len priming_key] characters of the upper-cased text. *)
Lemma autokey_prepare_step (text key : str) (text_index i : Z) (c : ascii) :
  getitem text text_index = Ok c →
  Autokey.prepare_key_step text (key, text_index) i
  = Ok (key ++ [c], text_index + 1).
Proof.
  intros Hget. unfold Autokey.prepare_key_step. rewrite Hget. simpl.
  by destruct (isalpha c).
Qed.

Lemma autokey_prepare_loop (text : str) (items : list Z) :
  ∀ key text_index,
    0 ≤ text_index → text_index + len items ≤ len text →
    for_each (Autokey.prepare_key_step text) items (key, text_index)
    = Ok (key ++ take (length items) (drop (Z.to_nat text_index) text),
          text_index + len items).
Proof.
  induction items as [|i items IH]; intros key t Ht Hlen.
  - simpl. rewrite app_nil_r. do 2 f_equal. unfold len. simpl. lia.
  - unfold len in Hlen. simpl length in Hlen.
    destruct (getitem_ok text t) as (c & Hget & Hc); [unfold len; lia|].
    rewrite for_each_cons, (autokey_prepare_step _ _ _ _ c Hget), bind_Ok.
    rewrite IH by (unfold len; lia).
    rewrite <- app_assoc. simpl.
    rewrite (drop_S _ _ _ Hc). simpl.
    replace (Z.to_nat (t + 1)) with (S (Z.to_nat t)) by lia.
    do 2 f_equal. unfold len. simpl length. lia.
Qed.

Lemma autokey_prepare_key_spec (text priming_key : str) :
  Autokey.prepare_key text priming_key
  = Ok (str_upper priming_key
          ++ take (length text - length priming_key) (str_upper text)).
Proof.
  unfold Autokey.prepare_key.
  rewrite autokey_prepare_loop.
  - simpl. do 2 f_equal. unfold range. rewrite length_seqZ.
    unfold len, str_upper. rewrite !length_fmap. f_equal. lia.
  - lia.
  - unfold range, len. rewrite length_seqZ. unfold str_upper.
    rewrite !length_fmap. lia.
Qed.


Lemma enumerate_prefix_snoc {A} (l : list A) (seen : list (Z * A)) (i : Z)
    (x : A) :
  seen ++ [(i, x)] `prefix_of` enumerate l →
  i = len seen ∧ l !! length seen = Some x.
Proof.
  intros [rest Hrest].
  assert (H : enumerate l !! length seen = Some (i, x)).
  { rewrite Hrest, <- app_assoc. simpl. by apply list_lookup_middle. }
  unfold enumerate in H. apply lookup_zip_with_Some in H.
  destruct H as (j & y & [= -> ->] & Hj & Hy). split; [|done].
  unfold range in Hj. apply lookup_seqZ in Hj. unfold len. lia.
Qed.

Lemma snd_enumerate {A} (l : list A) : (enumerate l).*2 = l.
Proof.
  unfold enumerate. apply snd_zip. unfold range. rewrite length_seqZ.
  unfold len. lia.
Qed.








(** * Beaufort is reciprocal *)












(** * Autokey *)

(** C1 at the module's own example. Encryption consumes the plaintext
    position for position (the space takes a key slot), decryption advances
    [text_index] on letters only; after the first non-letter beyond the
    priming key the two key streams differ and the round trip is lost. *)
Theorem autokey_roundtrip_hello_world :
  Autokey.encrypt (lit "HELLO WORLD") (lit "KEY") = Ok (lit "RIJSS HCKHR") ∧
  Autokey.decrypt (lit "RIJSS HCKHR") (lit "KEY") = Ok (lit "HELLO WRWOV") ∧
  Autokey.encrypt (lit "HELLO WORLD") (lit "KEY")
    ≫= (λ c, Autokey.decrypt c (lit "KEY"))
  ≠ Ok (lit "HELLO WORLD").
Proof. repeat split; [vm_compute; reflexivity..|vm_compute; discriminate]. Qed.

(** ** Where the Autokey round trip does hold *)

Lemma autokey_encrypt_step_char (acc : str) (c k : ascii) :
  Autokey.encrypt_step acc (c, k) = acc ++ [autokey_encrypt_char c k].
Proof.
  unfold Autokey.encrypt_step, autokey_encrypt_char. by destruct (isalpha c).
Qed.

Lemma autokey_encrypt_loop (text key acc : str) :
  fold_left Autokey.encrypt_step (zip text key) acc
  = acc ++ zip_with autokey_encrypt_char text key.
Proof.
  revert key acc. induction text as [|c text IH]; intros key acc.
  - simpl. by rewrite app_nil_r.
  - destruct key as [|k key]; [simpl; by rewrite app_nil_r|].
    cbn [zip_with fold_left].
    rewrite autokey_encrypt_step_char, IH, <- app_assoc. done.
Qed.

Lemma autokey_encrypt_spec (text priming_key : str) :
  Autokey.encrypt text priming_key
  = Ok (zip_with autokey_encrypt_char text
          (str_upper priming_key
             ++ take (length text - length priming_key) (str_upper text))).
Proof.
  unfold Autokey.encrypt. rewrite autokey_prepare_key_spec, bind_Ok.
  by rewrite autokey_encrypt_loop.
Qed.

Lemma upper_idemp (c : ascii) : upper (upper c) = upper c.
Proof.
  destruct (islower c) eqn:Hl.
  - assert (Ha : isalpha c = true) by (unfold isalpha; rewrite Hl; apply orb_true_r).
    assert (Hu : isupper c = false).
    { apply isupper_false. apply islower_spec in Hl. lia. }
    destruct (residue_lower c Ha Hu) as (-> & Hr & _).
    replace (ord c - 32) with ((ord c - 97) + 65) by lia.
    by destruct (upper_letter (ord c - 97) Hr) as (_ & _ & -> & _).
  - unfold upper. by rewrite Hl, Hl.
Qed.

Lemma autokey_residue (x k : Z) : 0 ≤ x < 26 → ((x + k) mod 26 - k) mod 26 = x.
Proof.
  intros Hx. rewrite Zminus_mod_idemp_l.
  replace (x + k - k) with x by lia. by apply Z.mod_small.
Qed.

(** Decrypting a letter under a key character with the same residue as the
    one it was encrypted under gives the letter back. *)
Lemma autokey_char_roundtrip (c k : ascii) :
  isalpha c = true →
  let d := autokey_encrypt_char c k in
  isalpha d = true ∧
  (if isupper d
   then chr ((ord (upper d) - ord "A" - (ord (upper k) - ord "A")) mod 26
             + ord "A")
   else lower (chr ((ord (upper d) - ord "A" - (ord (upper k) - ord "A")) mod 26
                    + ord "A")))
  = c.
Proof.
  intros Ha. simpl. unfold autokey_encrypt_char. rewrite Ha.
  change (ord "A") with 65. set (kn := ord (upper k) - 65).
  destruct (isupper c) eqn:Hu.
  - destruct (residue_upper c Hu) as (_ & Hup & Hr). rewrite Hup.
    set (n := (ord c - 65 + kn) mod 26).
    assert (Hn : 0 ≤ n < 26) by apply mod26_bound.
    destruct (upper_letter n Hn) as (-> & -> & -> & _). split; [done|].
    rewrite ord_chr by lia. replace (n + 65 - 65) with n by lia.
    unfold n. rewrite autokey_residue by done.
    replace (ord c - 65 + 65) with (ord c) by lia. apply chr_ord.
  - destruct (residue_lower c Ha Hu) as (_ & Hr & Hres). rewrite Hres.
    set (n := (ord c - 97 + kn) mod 26).
    assert (Hn : 0 ≤ n < 26) by apply mod26_bound.
    destruct (upper_letter n Hn) as (_ & _ & _ & ->).
    destruct (lower_letter n Hn) as (-> & -> & ->). split; [done|].
    rewrite ord_chr by lia. replace (n + 65 - 65) with n by lia.
    unfold n. rewrite autokey_residue by done.
    destruct (upper_letter (ord c - 97) Hr) as (_ & _ & _ & ->).
    replace (ord c - 97 + 97) with (ord c) by lia. apply chr_ord.
Qed.

(** On a text made of letters only, and with a non-empty priming key, the
    two key streams agree and decryption undoes encryption. *)
Lemma autokey_roundtrip_letters (text priming_key : str) :
  priming_key ≠ [] →
  Forall (λ c, isalpha c = true) text →
  Autokey.encrypt text priming_key
    ≫= (λ c, Autokey.decrypt c priming_key)
  = Ok text.
Proof.
  intros Hkey Htext. pose proof (len_pos priming_key Hkey) as HL.
  rewrite autokey_encrypt_spec, bind_Ok.
  set (key := str_upper priming_key
                ++ take (length text - length priming_key) (str_upper text)).
  set (out := zip_with autokey_encrypt_char text key).
  assert (Hkeylen : (length text ≤ length key)%nat).
  { unfold key, str_upper. rewrite length_app, length_take, !length_fmap. lia. }
  assert (Houtlen : length out = length text).
  { unfold out. rewrite length_zip_with. lia. }
  unfold Autokey.decrypt.
  destruct (for_each_inv
              (Autokey.decrypt_step priming_key (str_upper priming_key))
              (λ seen st, st.1 = take (length seen) text ∧
                          st.2 = Z.max 0 (len seen - len priming_key))
              (enumerate out) ([], 0)) as ([res t] & -> & Hres & _).
  - simpl. split; [done|]. unfold len. simpl. lia.
  - intros seen [i d] [result t] Hpre [Hr Ht]. simpl in *.
    apply enumerate_prefix_snoc in Hpre as [-> Hd].
    pose proof (lookup_lt_Some _ _ _ Hd) as Hi. rewrite Houtlen in Hi.
    unfold out in Hd. apply lookup_zip_with_Some in Hd
      as (c & k & -> & Hc & Hk).
    assert (Hac : isalpha c = true).
    { rewrite Forall_forall in Htext. apply Htext.
      by eapply list_elem_of_lookup_2. }
    destruct (autokey_char_roundtrip c k Hac) as [Had Hback].
    unfold Autokey.decrypt_step. rewrite Had.
    rewrite length_app. simpl.
    replace (length seen + 1)%nat with (S (length seen)) by lia.
    rewrite (take_S_r _ _ _ Hc), <- Hr.
    destruct (Z.ltb_spec (len seen) (len priming_key)) as [Hlt|Hge].
    + destruct (getitem_ok (str_upper priming_key) (len seen))
        as (k' & -> & Hk').
      { unfold str_upper, len. rewrite length_fmap. unfold len in *. lia. }
      assert (k' = k) as ->.
      { unfold key in Hk. rewrite lookup_app_l in Hk.
        - unfold len in Hk'. rewrite Nat2Z.id in Hk'. congruence.
        - unfold str_upper. rewrite length_fmap. unfold len in *. lia. }
      rewrite !bind_Ok. cbv beta iota zeta. rewrite Hback.
      eexists. split; [reflexivity|]. simpl. split; [done|].
      unfold len in *. rewrite length_app. simpl. lia.
    + destruct (getitem_ok result t) as (r & -> & Hrt).
      { rewrite Hr. unfold len in *. rewrite length_take. lia. }
      assert (upper r = k) as Hrk.
      { unfold key in Hk. rewrite lookup_app_r in Hk
          by (unfold str_upper; rewrite length_fmap; unfold len in *; lia).
        unfold str_upper in Hk. rewrite length_fmap in Hk.
        apply lookup_take_Some in Hk as [Hk _].
        rewrite list_lookup_fmap in Hk.
        rewrite Hr, lookup_take_lt in Hrt
          by (unfold len in *; lia).
        replace (Z.to_nat t) with (length seen - length priming_key)%nat
          in Hrt by (unfold len in *; lia).
        rewrite Hrt in Hk. simpl in Hk. congruence. }
      rewrite !bind_Ok. cbv beta iota zeta. rewrite <- (upper_idemp r), Hrk, Hback.
      eexists. split; [reflexivity|]. simpl. split; [done|].
      unfold len in *. rewrite length_app. simpl. lia.
  - simpl in *. rewrite Hres. f_equal.
    apply take_ge. unfold enumerate.
    rewrite length_zip_with, length_range. unfold len. lia.
Qed.

(** With an empty priming key, decryption reads [result[0]] before anything
    has been written. *)
Lemma autokey_decrypt_empty_key :
  Autokey.decrypt (lit "A") (lit "") = Raise IndexError.
Proof. reflexivity. Qed.

(** * Cryptanalysis toolkit *)




(** ** Repeated sequences *)

Lemma len_slice {A} (s : list A) (i n : Z) :
  0 ≤ i → 0 ≤ n → i + n ≤ len s → len (slice s i (i + n)) = n.
Proof.
  intros Hi Hn Hle. unfold slice, clamp_index, len in *.
  destruct (Z.ltb_spec i 0); [lia|].
  destruct (Z.ltb_spec (i + n) 0); [lia|].
  rewrite length_take, length_drop. lia.
Qed.




Lemma ascending_nil : strictly_ascending [].
Proof. intros i j x y Hx. by rewrite lookup_nil in Hx. Qed.







(** * Route patterns are coordinate orders *)

Lemma elem_of_row_cells (t : Z) (items : list Z) (p : Z * Z) :
  p ∈ (λ i, (t, i)) <$> items ↔ p.1 = t ∧ p.2 ∈ items.
Proof.
  rewrite list_elem_of_fmap. destruct p as [r c]. simpl. split.
  - by intros (i & [= -> ->] & Hi).
  - intros [-> Hc]. eauto.
Qed.

Lemma elem_of_col_cells (k : Z) (items : list Z) (p : Z * Z) :
  p ∈ (λ i, (i, k)) <$> items ↔ p.2 = k ∧ p.1 ∈ items.
Proof.
  rewrite list_elem_of_fmap. destruct p as [r c]. simpl. split.
  - by intros (i & [= -> ->] & Hi).
  - intros [-> Hc]. eauto.
Qed.

Lemma NoDup_row_cells (t : Z) (items : list Z) :
  NoDup items → NoDup ((λ i, (t, i)) <$> items).
Proof. apply NoDup_fmap_2. by intros x y [= ->]. Qed.

Lemma NoDup_col_cells (k : Z) (items : list Z) :
  NoDup items → NoDup ((λ i, (i, k)) <$> items).
Proof. apply NoDup_fmap_2. by intros x y [= ->]. Qed.

(** Blocks that are told apart by a tag (the row, or the anti-diagonal). *)
Lemma NoDup_tagged_bind (tag : Z * Z → Z) (g : Z → list (Z * Z))
    (items : list Z) :
  NoDup items →
  (∀ i, NoDup (g i)) →
  (∀ i p, p ∈ g i → tag p = i) →
  NoDup (items ≫= g).
Proof.
  intros Hitems Hg Htag. apply NoDup_bind; [|by auto|done].
  intros i j p _ _ Hi Hj. apply Htag in Hi, Hj. congruence.
Qed.

(** ** Snake *)

Lemma snake_pattern_covers (rows cols : Z) :
  covers_grid_once rows cols (Route.snake_pattern rows cols).
Proof.
  unfold Route.snake_pattern.
  rewrite (fold_left_append _
             (λ i, if i mod 2 =? 0
                   then (λ j, (i, j)) <$> range 0 cols
                   else (λ j, (i, j)) <$> range_down (cols - 1) (-1))).
  2: { intros acc i. destruct (i mod 2 =? 0); apply append_each_spec. }
  simpl. split.
  - apply (NoDup_tagged_bind fst); [apply NoDup_range| |].
    + intros i. destruct (i mod 2 =? 0); apply NoDup_row_cells;
        [apply NoDup_range|apply NoDup_range_down].
    + intros i p. destruct (i mod 2 =? 0); rewrite elem_of_row_cells; by intros [].
  - intros p. rewrite list_elem_of_bind. unfold in_grid. split.
    + intros (i & Hp & Hi). apply elem_of_range in Hi.
      destruct (i mod 2 =? 0); apply elem_of_row_cells in Hp as [-> Hc].
      * apply elem_of_range in Hc. lia.
      * apply elem_of_range_down in Hc. lia.
    + intros [Hr Hc]. exists p.1. split; [|apply elem_of_range; lia].
      destruct (p.1 mod 2 =? 0); apply elem_of_row_cells; (split; [done|]).
      * apply elem_of_range. lia.
      * apply elem_of_range_down. lia.
Qed.

(** ** Diagonal *)

Lemma diagonal_pattern_covers (rows cols : Z) :
  covers_grid_once rows cols (Route.diagonal_pattern rows cols).
Proof.
  unfold Route.diagonal_pattern.
  set (cell := λ sum_idx i : Z,
         if (0 <=? sum_idx - i) && (sum_idx - i <? cols)
         then [(i, sum_idx - i)] else []).
  rewrite (fold_left_append _ (λ sum_idx, range 0 rows ≫= cell sum_idx)).
  2: { intros acc sum_idx. apply fold_left_append. intros acc' i.
       unfold cell. destruct ((0 <=? sum_idx - i) && (sum_idx - i <? cols));
         [done|by rewrite app_nil_r]. }
  simpl.
  assert (Hcell : ∀ sum_idx i p,
            p ∈ cell sum_idx i ↔
            p.1 = i ∧ p.1 + p.2 = sum_idx ∧ 0 ≤ p.2 < cols).
  { intros s i [r c]. unfold cell. simpl.
    destruct (Z.leb_spec 0 (s - i)); destruct (Z.ltb_spec (s - i) cols); simpl;
      rewrite ?list_elem_of_singleton, ?elem_of_nil;
      (split; [intros H'; try done; injection H' as -> ->; lia|]);
      intros (-> & <- & ?); try lia; f_equal; lia. }
  assert (Hdiag : ∀ sum_idx p,
            p ∈ range 0 rows ≫= cell sum_idx ↔
            p.1 + p.2 = sum_idx ∧ 0 ≤ p.1 < rows ∧ 0 ≤ p.2 < cols).
  { intros s p. rewrite list_elem_of_bind. split.
    - intros (i & Hp & Hi). apply Hcell in Hp as (<- & ? & ?).
      apply elem_of_range in Hi. lia.
    - intros (? & ? & ?). exists p.1. split; [by apply Hcell|].
      apply elem_of_range. lia. }
  split.
  - apply (NoDup_tagged_bind (λ p, p.1 + p.2)); [apply NoDup_range| |].
    + intros s. apply (NoDup_tagged_bind fst); [apply NoDup_range| |].
      * intros i. unfold cell.
        destruct ((0 <=? s - i) && (s - i <? cols));
          [apply NoDup_singleton|apply NoDup_nil_2].
      * intros i p Hp. by apply Hcell in Hp as [? _].
    + intros s p Hp. by apply Hdiag in Hp as [? _].
  - intros p. rewrite list_elem_of_bind. unfold in_grid. split.
    + intros (s & Hp & _). apply Hdiag in Hp. lia.
    + intros [? ?]. exists (p.1 + p.2). split; [by apply Hdiag|].
      apply elem_of_range. lia.
Qed.

(** ** Spiral *)

Lemma spiral_while_unfold (s : Route.spiral_state) :
  Route.spiral_while s
  = if Route.spiral_cond s then Route.spiral_while (Route.spiral_body s)
    else s.
Proof.
  rewrite Route.spiral_while_equation_1.
  unfold Route.spiral_while_unfold_clause_1, inspect.
  by destruct (Route.spiral_cond s).
Qed.

(** One pass of the loop body appends the outer ring of the rectangle that
    is left, and leaves the rectangle inside that ring. *)
Lemma spiral_body_ring (s : Route.spiral_state) :
  Route.spiral_cond s = true →
  ∃ ring,
    Route.sp_coordinates (Route.spiral_body s)
    = Route.sp_coordinates s ++ ring ∧
    NoDup ring ∧
    ∀ p, p ∈ ring ↔
         spiral_rect s p ∧ ¬ spiral_rect (Route.spiral_body s) p.
Proof.
  destruct s as [t b l r cs]. unfold Route.spiral_cond. simpl.
  intros Hc. apply andb_prop in Hc as [Ht Hl].
  apply Z.leb_le in Ht, Hl.
  unfold Route.spiral_body, spiral_rect. rewrite !append_each_spec.
  destruct (Z.leb_spec (t + 1) b) as [Hb|Hb];
    destruct (Z.leb_spec l (r - 1)) as [Hr|Hr];
    rewrite ?append_each_spec; simpl; rewrite <- ?app_assoc;
    (eexists; split; [reflexivity|]); (split; [|intros [pr pc]]);
    rewrite ?NoDup_app;
    repeat setoid_rewrite elem_of_app;
    repeat setoid_rewrite elem_of_row_cells;
    repeat setoid_rewrite elem_of_col_cells;
    repeat setoid_rewrite elem_of_range;
    repeat setoid_rewrite elem_of_range_down;
    simpl.
  all: try (split_and!;
            try (apply NoDup_row_cells || apply NoDup_col_cells);
            try (apply NoDup_range || apply NoDup_range_down);
            intros [pr pc]; simpl; lia).
  all: lia.
Qed.

Lemma spiral_body_shrinks (s : Route.spiral_state) (p : Z * Z) :
  Route.spiral_cond s = true →
  spiral_rect (Route.spiral_body s) p → spiral_rect s p.
Proof.
  destruct s as [t b l r cs]. unfold Route.spiral_cond. simpl.
  intros Hc. apply andb_prop in Hc as [Ht Hl].
  apply Z.leb_le in Ht, Hl.
  unfold Route.spiral_body, spiral_rect.
  destruct (Z.leb_spec (t + 1) b); destruct (Z.leb_spec l (r - 1)); simpl; lia.
Qed.

Lemma spiral_while_spec (n : nat) :
  ∀ s, (Route.spiral_measure s < n)%nat →
    ∃ cells,
      Route.sp_coordinates (Route.spiral_while s)
      = Route.sp_coordinates s ++ cells ∧
      NoDup cells ∧
      ∀ p, p ∈ cells ↔ spiral_rect s p.
Proof.
  induction n as [|n IH]; intros s Hn; [lia|].
  rewrite spiral_while_unfold. destruct (Route.spiral_cond s) eqn:Hc.
  - destruct (spiral_body_ring s Hc) as (ring & Hring & Hnd & Hmem).
    pose proof (Route.spiral_body_decreases s Hc) as Hdec.
    destruct (IH (Route.spiral_body s) ltac:(lia)) as (inner & Hin & Hndi & Hmi).
    exists (ring ++ inner). rewrite Hin, Hring, <- app_assoc.
    split; [done|]. split.
    + apply NoDup_app. split_and!; [done| |done].
      intros p Hp Hp'. apply Hmem in Hp as [_ Hout].
      apply Hout. by apply Hmi.
    + intros p. rewrite elem_of_app, Hmem, Hmi. split.
      * intros [[? _]|?]; [done|by eapply spiral_body_shrinks].
      * intros Hp.
        destruct (decide (p ∈ inner)) as [Hi|Hi]; [right; by apply Hmi|].
        left. split; [done|]. intros Hq. apply Hi. by apply Hmi.
  - exists []. rewrite app_nil_r. split; [done|]. split; [constructor|].
    intros p. rewrite elem_of_nil. unfold spiral_rect.
    unfold Route.spiral_cond in Hc. apply andb_false_iff in Hc.
    rewrite !Z.leb_gt in Hc. lia.
Qed.

Lemma spiral_inward_covers (rows cols : Z) :
  covers_grid_once rows cols (Route.spiral_inward rows cols).
Proof.
  unfold Route.spiral_inward.
  set (s := Route.SpiralState 0 (rows - 1) 0 (cols - 1) []).
  destruct (spiral_while_spec (S (Route.spiral_measure s)) s ltac:(lia))
    as (cells & -> & Hnd & Hmem).
  simpl. split; [done|]. intros p. rewrite Hmem.
  unfold spiral_rect, in_grid. simpl. lia.
Qed.

Lemma spiral_outward_covers (rows cols : Z) :
  covers_grid_once rows cols (Route.spiral_outward rows cols).
Proof.
  destruct (spiral_inward_covers rows cols) as [Hnd Hmem].
  unfold Route.spiral_outward. split.
  - by rewrite reverse_Permutation.
  - intros p. by rewrite elem_of_reverse.
Qed.

(** C4. Each Route pattern generator (spiral-in, spiral-out, snake,
    diagonal), for every [rows ≥ 1] and [cols ≥ 1], returns a coordinate
    sequence that contains every pair [(row, col)] with [0 ≤ row < rows] and
    [0 ≤ col < cols] exactly once and nothing else; the generators take
    [(rows, cols)] only, so the order does not depend on the text. *)
Theorem route_patterns_cover_grid (rows cols : Z) :
  1 ≤ rows → 1 ≤ cols →
  covers_grid_once rows cols (Route.spiral_inward rows cols) ∧
  covers_grid_once rows cols (Route.spiral_outward rows cols) ∧
  covers_grid_once rows cols (Route.snake_pattern rows cols) ∧
  covers_grid_once rows cols (Route.diagonal_pattern rows cols).
Proof.
  intros _ _. split_and!.
  - apply spiral_inward_covers.
  - apply spiral_outward_covers.
  - apply snake_pattern_covers.
  - apply diagonal_pattern_covers.
Qed.

Lemma route_patterns_cover_grid_witness :
  covers_grid_once 3 4 (Route.spiral_inward 3 4) ∧
  covers_grid_once 3 4 (Route.spiral_outward 3 4) ∧
  covers_grid_once 3 4 (Route.snake_pattern 3 4) ∧
  covers_grid_once 3 4 (Route.diagonal_pattern 3 4).
Proof. apply (route_patterns_cover_grid 3 4); lia. Defined.

(** * Rail Fence *)

(** The characters that the read-off loop keeps. *)
Lemma read_off_row (rail result : str) :
  fold_left
    (λ result char,
       if negb (Ascii.eqb char RailFence.newline) then result ++ [char]
       else result)
    rail result
  = result ++ filter (λ c, c ≠ RailFence.newline) rail.
Proof.
  revert result. induction rail as [|c rail IH]; intros result; simpl.
  - by rewrite app_nil_r.
  - rewrite IH, filter_cons. destruct (Ascii.eqb_spec c RailFence.newline).
    + simpl. by rewrite decide_False by (intros H; by apply H).
    + simpl. rewrite decide_True by done. by rewrite <- app_assoc.
Qed.

Lemma read_off_spec (fence : list str) :
  RailFence.read_off fence
  = fence ≫= filter (λ c, c ≠ RailFence.newline).
Proof.
  unfold RailFence.read_off.
  rewrite (fold_left_append _ (filter (λ c, c ≠ RailFence.newline))); [done|].
  intros acc rail. apply read_off_row.
Qed.

(** Writing a character into an empty cell adds it to what is read off,
    unless the character is the sentinel itself. *)
Lemma filter_insert_empty_cell (row : str) (i : nat) (c : ascii) :
  row !! i = Some RailFence.newline →
  filter (λ c, c ≠ RailFence.newline) (<[i := c]> row)
  ≡ₚ filter (λ c, c ≠ RailFence.newline) [c]
     ++ filter (λ c, c ≠ RailFence.newline) row.
Proof.
  intros Hi. pose proof (lookup_lt_Some _ _ _ Hi) as Hlt.
  rewrite insert_take_drop by done.
  rewrite <- (take_drop_middle row i _ Hi) at 3.
  rewrite !filter_app, !(filter_cons _ c), (filter_cons_False _ RailFence.newline)
    by (intros H; by apply H).
  rewrite filter_nil.
  destruct (decide (c ≠ RailFence.newline)); simpl; [|done].
  by rewrite Permutation_middle.
Qed.

Lemma bind_insert_Permutation {A B} (g : A → list B) (l : list A) (r : nat)
    (x x' : A) (extra : list B) :
  l !! r = Some x → g x' ≡ₚ extra ++ g x →
  (<[r := x']> l) ≫= g ≡ₚ extra ++ (l ≫= g).
Proof.
  intros Hr Hg. pose proof (lookup_lt_Some _ _ _ Hr) as Hlt.
  rewrite insert_take_drop by done.
  rewrite <- (take_drop_middle l r x Hr) at 3.
  rewrite !bind_app, !bind_cons, Hg, <- app_assoc.
  apply Permutation_app_swap_app.
Qed.

Lemma empty_fence_read_off (k m : nat) :
  replicate k (replicate m RailFence.newline)
    ≫= filter (λ c, c ≠ RailFence.newline) = [].
Proof.
  assert (Hrow : filter (λ c, c ≠ RailFence.newline)
                   (replicate m RailFence.newline) = []).
  { induction m as [|m IH]; [done|]. cbn [replicate].
    by rewrite filter_cons_False by (intros H; by apply H). }
  induction k as [|k IH]; [done|]. cbn [replicate].
  by rewrite bind_cons, Hrow, IH.
Qed.

(** The loop of [create_fence] never leaves the fence, and what is read
    off at the end is the text without the sentinel, rearranged. *)
Lemma create_fence_spec (text : str) (rails : Z) :
  2 ≤ rails →
  ∃ fence,
    RailFence.create_fence text rails = Ok fence ∧
    RailFence.read_off fence ≡ₚ filter (λ c, c ≠ RailFence.newline) text.
Proof.
  intros Hrails. unfold RailFence.create_fence.
  destruct (for_each_inv (RailFence.create_fence_step text rails)
              (λ seen st, fence_inv text rails (length seen) st)
              (range 0 (len text))
              (replicate (Z.to_nat rails)
                 (replicate (length text) RailFence.newline), 0, 1))
    as ([[fence rail] direction] & -> & Hinv).
  - unfold fence_inv. split_and!; try lia.
    + by rewrite length_replicate.
    + intros r row Hrow. apply lookup_replicate in Hrow as [-> _].
      split; [by rewrite length_replicate|].
      intros j Hj. apply lookup_replicate_2. lia.
    + rewrite take_0, filter_nil. by rewrite empty_fence_read_off.
  - intros seen i [[fence rail] direction] Hpre Hinv.
    apply range_prefix_snoc in Hpre as [-> Hi].
    rewrite length_range in Hinv.
    rewrite length_app, length_range. simpl.
    replace (Z.to_nat (i - 0) + 1)%nat with (S (Z.to_nat i)) by lia.
    replace (Z.to_nat (i - 0)) with (Z.to_nat i) in Hinv by lia.
    destruct Hinv as (Hlen & Hrows & Hrail & Hdir & Hperm).
    unfold RailFence.create_fence_step.
    destruct (getitem_ok text i) as (c & -> & Hc); [lia|].
    destruct (getitem_ok fence rail) as (row & -> & Hrow);
      [unfold len; lia|].
    destruct (Hrows _ _ Hrow) as [Hrowlen Hempty].
    simpl. rewrite (setitem_ok row i c) by (unfold len in *; lia).
    simpl. rewrite (setitem_ok fence rail) by (unfold len; lia).
    simpl. eexists. split; [reflexivity|].
    unfold fence_inv. split_and!.
    + by rewrite length_insert.
    + intros r row' Hr. apply list_lookup_insert_Some in Hr
        as [(<- & <- & _)|[_ Hr]].
      * rewrite length_insert. split; [done|]. intros j Hj.
        rewrite list_lookup_insert_ne by lia. apply Hempty. lia.
      * destruct (Hrows _ _ Hr) as [? He]. split; [done|].
        intros j Hj. apply He. lia.
    + destruct (Z.eqb_spec rail 0); [lia|].
      destruct (Z.eqb_spec rail (rails - 1)); lia.
    + destruct (Z.eqb_spec rail 0); [lia|].
      destruct (Z.eqb_spec rail (rails - 1)); lia.
    + destruct (Z.eqb_spec rail 0); [by left|].
      destruct (Z.eqb_spec rail (rails - 1)); [by right|done].
    + rewrite (take_S_r _ _ _ Hc), filter_app.
      rewrite (bind_insert_Permutation _ _ _ row _
                 (filter (λ c, c ≠ RailFence.newline) [c]) Hrow).
      * rewrite Hperm. apply Permutation_app_comm.
      * apply filter_insert_empty_cell. apply Hempty.
        unfold len in *. lia.
  - simpl. exists fence. split; [done|].
    destruct Hinv as (_ & _ & _ & _ & Hperm).
    rewrite length_range in Hperm.
    rewrite read_off_spec, Hperm, take_ge; [done|]. unfold len. lia.
Qed.

(** C3, as the code has it. Rail Fence works on the text as it is given:
    for every text and every [rails] with [2 ≤ rails ≤ len(text)],
    [encrypt(text, rails)] is a rearrangement of the characters of the text
    other than ['\n'], each of them unchanged (no case folding, no
    filtering of non-alphanumeric characters). *)
Theorem railfence_encrypt_rearranges (text : str) (rails : Z) :
  2 ≤ rails ≤ len text →
  ∃ out, RailFence.encrypt text rails = Ok out ∧
         out ≡ₚ filter (λ c, c ≠ RailFence.newline) text.
Proof.
  intros [Hlo Hhi]. unfold RailFence.encrypt.
  destruct (Z.ltb_spec rails 2); [lia|].
  destruct (Z.ltb_spec (len text) rails); [lia|].
  destruct (create_fence_spec text rails Hlo) as (fence & -> & Hperm).
  rewrite bind_Ok. eauto.
Qed.

Lemma railfence_encrypt_rearranges_witness :
  ∃ out, RailFence.encrypt (lit "Hello, World") 3 = Ok out ∧
         out ≡ₚ filter (λ c, c ≠ RailFence.newline) (lit "Hello, World").
Proof.
  apply (railfence_encrypt_rearranges (lit "Hello, World") 3).
  vm_compute. split; discriminate.
Defined.

(** C3, as stated, fails: the output keeps the space and the lower case. *)
Lemma railfence_keeps_case_and_spaces :
  RailFence.encrypt (lit "a b") 2 = Ok (lit "ab ") ∧
  ¬ (lit "ab " ≡ₚ str_upper (filter (λ c, isalnum c = true) (lit "a b"))) ∧
  str_upper (lit "ab ") ≠ lit "ab ".
Proof.
  split_and!.
  - vm_compute. reflexivity.
  - intros H. apply Permutation_length in H. vm_compute in H. discriminate.
  - vm_compute. discriminate.
Qed.

(** C10. Rail Fence encryption silently drops newlines: for every text
    that contains ['\n'] and every valid [rails], no ['\n'] is left in
    [encrypt(text, rails)], and the output is strictly shorter than the
    input; ['\n'] is the empty-cell sentinel of the fence. *)
Theorem railfence_drops_newlines (text : str) (rails : Z) :
  2 ≤ rails ≤ len text →
  RailFence.newline ∈ text →
  ∃ out, RailFence.encrypt text rails = Ok out ∧
         (RailFence.newline ∉ out) ∧
         (length out < length text)%nat.
Proof.
  intros [Hlo Hhi] Hnl. unfold RailFence.encrypt.
  destruct (Z.ltb_spec rails 2); [lia|].
  destruct (Z.ltb_spec (len text) rails); [lia|].
  destruct (create_fence_spec text rails Hlo) as (fence & -> & Hperm).
  rewrite bind_Ok. eexists. split_and!; [done| |].
  - rewrite Hperm, list_elem_of_filter. by intros [Hne _].
  - rewrite Hperm. eapply length_filter_lt; [done|]. by intros Hne.
Qed.

Lemma railfence_drops_newlines_witness :
  ∃ out,
    RailFence.encrypt (lit "a" ++ RailFence.newline :: lit "bc") 2 = Ok out ∧
    (RailFence.newline ∉ out) ∧
    (length out < length (lit "a" ++ RailFence.newline :: lit "bc"))%nat.
Proof.
  apply (railfence_drops_newlines
           (lit "a" ++ RailFence.newline :: lit "bc") 2).
  - vm_compute. split; discriminate.
  - apply list_elem_of_further, list_elem_of_here.
Defined.

(** * Myszkowski *)

Lemma for_each_app {A S} (body : S → A → result S) (l1 l2 : list A) (s : S) :
  for_each body (l1 ++ l2) s = for_each body l1 s ≫= for_each body l2.
Proof.
  revert s. induction l1 as [|x l1 IH]; intros s; [done|].
  rewrite <- app_comm_cons, !for_each_cons.
  destruct (body s x) as [s'|e]; [|done]. rewrite !bind_Ok. apply IH.
Qed.

(** Nested [for] loops are one loop over the flattened items. *)
Lemma for_each_flatten {A B S} (outer : S → A → result S)
    (body : S → B → result S) (g : A → list B) (items : list A) (s : S) :
  (∀ s x, outer s x = for_each body (g x) s) →
  for_each outer items s = for_each body (items ≫= g) s.
Proof.
  intros Hout. revert s. induction items as [|x items IH]; intros s; [done|].
  rewrite for_each_cons, bind_cons, for_each_app, Hout.
  destruct (for_each body (g x) s) as [s'|e]; [|done].
  rewrite !bind_Ok. apply IH.
Qed.

Lemma for_each_fmap {A B S} (body : S → B → result S) (f : A → B)
    (items : list A) (s : S) :
  for_each (λ s x, body s (f x)) items s = for_each body (f <$> items) s.
Proof.
  revert s. induction items as [|x items IH]; intros s; [done|].
  rewrite fmap_cons, !for_each_cons.
  destruct (body s (f x)) as [s'|e]; [|done]. rewrite !bind_Ok. apply IH.
Qed.





Lemma length_concat_const {A} (l : list (list A)) (n : nat) :
  Forall (λ x, length x = n) l → length (concat l) = (length l * n)%nat.
Proof.
  induction 1 as [|x l Hx _ IH]; [done|].
  simpl. rewrite length_app, Hx, IH. lia.
Qed.






(** * Further properties of the substitution ciphers *)

(** ** Letters and residues *)


Lemma residue_letter (c : ascii) (n : Z) :
  0 ≤ n < 26 →
  isalpha (chr (case_base c + n)) = true ∧
  isupper (chr (case_base c + n)) = isupper c ∧
  ord (chr (case_base c + n)) = case_base c + n ∧
  case_base (chr (case_base c + n)) = case_base c.
Proof.
  intros Hn. unfold case_base. destruct (isupper c) eqn:Hu.
  - rewrite (Z.add_comm 65).
    destruct (upper_letter n Hn) as (-> & -> & _). rewrite ord_chr by lia. done.
  - rewrite (Z.add_comm 97).
    destruct (lower_letter n Hn) as (-> & -> & _). rewrite ord_chr by lia. done.
Qed.



(** ** Caesar *)

Lemma caesar_shift_char_letter (shift : Z) (c : ascii) :
  isalpha c = true →
  Caesar.shift_char shift c
  = chr (case_base c + (ord c - case_base c + shift) mod 26).
Proof.
  intros Ha. unfold Caesar.shift_char, case_base. rewrite Ha.
  change (ord "A") with 65. change (ord "a") with 97.
  by destruct (isupper c).
Qed.

Lemma caesar_shift_char_compose (a b : Z) (c : ascii) :
  Caesar.shift_char b (Caesar.shift_char a c) = Caesar.shift_char (a + b) c.
Proof.
  destruct (isalpha c) eqn:Ha.
  2: { unfold Caesar.shift_char. by rewrite Ha, Ha. }
  rewrite (caesar_shift_char_letter a c Ha).
  destruct (residue_letter c _ (mod26_bound (ord c - case_base c + a)))
    as (Hal & _ & Hord & Hbase).
  rewrite (caesar_shift_char_letter b _ Hal), Hbase, Hord.
  rewrite (caesar_shift_char_letter (a + b) c Ha). do 2 f_equal.
  replace (case_base c + (ord c - case_base c + a) mod 26 - case_base c + b)
    with ((ord c - case_base c + a) mod 26 + b) by lia.
  rewrite Zplus_mod_idemp_l. f_equal. lia.
Qed.


Lemma caesar_encrypt_fmap (text : str) (shift : Z) :
  Caesar.encrypt text shift = Caesar.shift_char shift <$> text.
Proof. unfold Caesar.encrypt. by rewrite append_each_spec. Qed.

(** X1. Caesar shifts add up: encrypting with [a] and then with [b] is
    encrypting with [a + b], for every text and all integer shifts
    (negative and beyond 26 included). *)
Theorem caesar_encrypt_compose (text : str) (a b : Z) :
  Caesar.encrypt (Caesar.encrypt text a) b = Caesar.encrypt text (a + b).
Proof.
  rewrite !caesar_encrypt_fmap, <- list_fmap_compose.
  apply list_fmap_ext. intros _ c _. apply caesar_shift_char_compose.
Qed.


(** ** Atbash *)




(** ** August *)

Lemma august_encrypt_loop (text : str) :
  ∀ acc shift,
    (fold_left August.encrypt_step text (acc, shift)).1
    = acc ++ progressive 1 shift text.
Proof.
  induction text as [|c text IH]; intros acc shift.
  - simpl. by rewrite app_nil_r.
  - cbn [fold_left progressive].
    assert (E : August.encrypt_step (acc, shift) c
                = (acc ++ [Caesar.shift_char (1 * shift) c],
                   if isalpha c then shift + 1 else shift)).
    { unfold August.encrypt_step, Caesar.shift_char. rewrite Z.mul_1_l.
      by destruct (isalpha c). }
    rewrite E, IH, <- app_assoc. done.
Qed.





(** X5. Without letters in between, August is a Caesar cipher whose shift
    grows by one per letter: on a text of letters only, the character at
    position [i] is the Caesar shift by [initial_shift + i] of the input
    character. *)
Theorem august_encrypt_letters (text : str) (initial_shift : Z) (i : nat)
    (c : ascii) :
  Forall (λ c, isalpha c = true) text →
  text !! i = Some c →
  August.encrypt text initial_shift !! i
  = Some (Caesar.shift_char (initial_shift + Z.of_nat i) c).
Proof.
  unfold August.encrypt. rewrite august_encrypt_loop. simpl.
  revert initial_shift i. induction text as [|x text IH]; intros s i Hall Hi.
  - by rewrite lookup_nil in Hi.
  - apply Forall_cons in Hall as [Hx Hall]. destruct i as [|i].
    + simpl in *. injection Hi as ->. do 2 f_equal. lia.
    + cbn [progressive]. rewrite Hx. simpl in *.
      rewrite (IH (s + 1) i Hall Hi). do 2 f_equal. lia.
Qed.

Lemma august_encrypt_letters_witness :
  August.encrypt (lit "abc") 1 !! 2%nat
  = Some (Caesar.shift_char (1 + Z.of_nat 2) "c").
Proof.
  apply (august_encrypt_letters (lit "abc") 1 2 "c").
  - repeat constructor.
  - reflexivity.
Defined.

(** ** Affine *)

(** The loop of [gcd] computes the greatest common divisor whenever its
    second argument is positive. *)
Lemma affine_gcd_spec (a b : Z) : 0 < b → Affine.gcd a b = Z.gcd a b.
Proof.
  intros Hb. revert a.
  induction (Z.lt_wf 0 b) as [b _ IH]. intros a.
  rewrite Affine.gcd_equation_1. unfold Affine.gcd_unfold_clause_1.
  destruct (Z.eq_dec b 0) as [->|_]; [lia|].
  pose proof (Z.mod_pos_bound a b Hb) as Hm.
  destruct (decide (a mod b = 0)) as [H0|Hne].
  - rewrite H0, Affine.gcd_equation_1. unfold Affine.gcd_unfold_clause_1.
    simpl. apply Z.mod_divide in H0; [|lia].
    symmetry. rewrite Z.gcd_comm. apply Z.divide_gcd_iff; [lia|done].
  - rewrite IH by lia. rewrite (Z.gcd_comm b), Z.gcd_mod by lia.
    apply Z.gcd_comm.
Qed.

(** Bézout's identity for the triple that [extended_gcd] returns. *)
Lemma affine_extended_gcd_bezout (a b : Z) :
  let '(g, x, y) := Affine.extended_gcd a b in a * x + b * y = g.
Proof.
  funelim (Affine.extended_gcd a b).
  - lia.
  - destruct (Affine.extended_gcd (b mod a) a) as [[g x1] y1].
    rewrite <- H, (Z.mod_eq b a) by done. ring.
Qed.

Lemma affine_extended_gcd_unfold (a b : Z) :
  Affine.extended_gcd a b
  = if Z.eq_dec a 0 then (b, 0, 1)
    else let '(g, x1, y1) := Affine.extended_gcd (b mod a) a in
         (g, y1 - b / a * x1, x1).
Proof.
  rewrite Affine.extended_gcd_equation_1.
  unfold Affine.extended_gcd_unfold_clause_1. by destruct (Z.eq_dec a 0).
Qed.

(** The first component is the greatest common divisor when both arguments
    are non-negative, and its opposite when both are non-positive. *)
Lemma affine_extended_gcd_nonneg (a b : Z) :
  0 ≤ a → 0 ≤ b → (Affine.extended_gcd a b).1.1 = Z.gcd a b.
Proof.
  revert b.
  induction (Z.lt_wf 0 a) as [a _ IH]. intros b Ha Hb.
  rewrite affine_extended_gcd_unfold.
  destruct (Z.eq_dec a 0) as [->|Hne].
  - simpl. rewrite Z.gcd_0_l. lia.
  - pose proof (Z.mod_pos_bound b a ltac:(lia)) as Hm.
    specialize (IH (b mod a) ltac:(lia) a ltac:(lia) ltac:(lia)).
    destruct (Affine.extended_gcd (b mod a) a) as [[g x1] y1].
    simpl in *. rewrite IH, Z.gcd_mod by done. done.
Qed.

Lemma affine_extended_gcd_nonpos (a b : Z) :
  a ≤ 0 → b ≤ 0 → (Affine.extended_gcd a b).1.1 = - Z.gcd a b.
Proof.
  intros Ha. remember (- a) as n eqn:Hn.
  revert a Ha Hn b.
  induction (Z.lt_wf 0 n) as [n _ IH]. intros a Ha Hn b Hb.
  rewrite affine_extended_gcd_unfold.
  destruct (Z.eq_dec a 0) as [->|Hne].
  - simpl. rewrite Z.gcd_0_l. lia.
  - pose proof (Z.mod_neg_bound b a ltac:(lia)) as Hm.
    specialize (IH (- (b mod a)) ltac:(lia) (b mod a) ltac:(lia)
                  eq_refl a ltac:(lia)).
    destruct (Affine.extended_gcd (b mod a) a) as [[g x1] y1].
    simpl in *. rewrite IH, Z.gcd_mod by done. done.
Qed.



Lemma affine_mod_inverse_coprime (a m : Z) :
  0 ≤ a → 0 < m → Z.gcd a m = 1 →
  ∃ x, Affine.mod_inverse a m = Ok x ∧ 0 ≤ x < m ∧
       (a * x) mod m = 1 mod m.
Proof.
  intros Ha Hm Hg. unfold Affine.mod_inverse.
  rewrite (affine_gcd_spec a m Hm), Hg. simpl.
  pose proof (affine_extended_gcd_bezout a m) as Hbz.
  pose proof (affine_extended_gcd_nonneg a m Ha ltac:(lia)) as Hfst.
  destruct (Affine.extended_gcd a m) as [[g x] y]. simpl in Hfst.
  unfold pymod. destruct (Z.eqb_spec m 0); [lia|].
  eexists. split; [reflexivity|].
  split; [apply Z.mod_pos_bound; lia|].
  rewrite Z.mul_mod_idemp_r by lia.
  replace (a * x) with (1 + (- y) * m) by lia.
  apply Z_mod_plus_full.
Qed.

(** X7. [mod_inverse] on a non-negative [a]: when [a] and [m] are coprime
    it returns the residue [x] in [0, m) with [a·x ≡ 1 (mod m)], and
    otherwise it raises [ValueError]. *)
Theorem affine_mod_inverse_correct (a m : Z) :
  0 ≤ a → 0 < m →
  (Z.gcd a m = 1 →
   ∃ x, Affine.mod_inverse a m = Ok x ∧ 0 ≤ x < m ∧
        (a * x) mod m = 1 mod m) ∧
  (Z.gcd a m ≠ 1 → Affine.mod_inverse a m = Raise ValueError).
Proof.
  intros Ha Hm. split; intros Hg.
  - by apply affine_mod_inverse_coprime.
  - unfold Affine.mod_inverse. rewrite (affine_gcd_spec a m Hm).
    by destruct (Z.eqb_spec (Z.gcd a m) 1).
Qed.

Lemma affine_mod_inverse_correct_witness :
  ∃ x, Affine.mod_inverse 5 26 = Ok x ∧ 0 ≤ x < 26 ∧
       (5 * x) mod 26 = 1 mod 26.
Proof.
  apply (affine_mod_inverse_correct 5 26); [lia|lia|reflexivity].
Defined.

(** X8. [mod_inverse] on a negative [a]: the recursion of [extended_gcd]
    then ends on the opposite of the greatest common divisor, and for [a]
    coprime to [m] the value returned satisfies [a·x ≡ −1 (mod m)]: it is
    the inverse of [-a], not of [a]. *)
Theorem affine_mod_inverse_negative (a m : Z) :
  a < 0 → 0 < m → Z.gcd a m = 1 →
  ∃ x, Affine.mod_inverse a m = Ok x ∧ 0 ≤ x < m ∧
       (a * x) mod m = (-1) mod m.
Proof.
  intros Ha Hm Hg. unfold Affine.mod_inverse.
  rewrite (affine_gcd_spec a m Hm), Hg. simpl.
  pose proof (affine_extended_gcd_bezout a m) as Hbz.
  assert (Hfst : (Affine.extended_gcd a m).1.1 = -1).
  { rewrite affine_extended_gcd_unfold.
    destruct (Z.eq_dec a 0) as [->|_]; [lia|].
    pose proof (Z.mod_neg_bound m a ltac:(lia)) as Hb.
    pose proof (affine_extended_gcd_nonpos (m mod a) a ltac:(lia) ltac:(lia))
      as Hrec.
    destruct (Affine.extended_gcd (m mod a) a) as [[g x1] y1].
    simpl in *. rewrite Hrec, Z.gcd_mod, (Z.gcd_comm a m) by lia.
    rewrite (Z.gcd_comm m a), Hg. done. }
  destruct (Affine.extended_gcd a m) as [[g x] y]. simpl in Hfst.
  unfold pymod. destruct (Z.eqb_spec m 0); [lia|].
  eexists. split; [reflexivity|].
  split; [apply Z.mod_pos_bound; lia|].
  rewrite Z.mul_mod_idemp_r by lia.
  replace (a * x) with (-1 + (- y) * m) by lia.
  apply Z_mod_plus_full.
Qed.

Lemma affine_mod_inverse_negative_witness :
  ∃ x, Affine.mod_inverse (-1) 26 = Ok x ∧ 0 ≤ x < 26 ∧
       (-1 * x) mod 26 = (-1) mod 26.
Proof.
  apply (affine_mod_inverse_negative (-1) 26); [lia|lia|reflexivity].
Defined.







(** ** Vigenère *)















(** ** The empty keyword *)








(** ** Autokey *)





(** X15. Autokey [decrypt] with the empty priming key raises [IndexError]
    on every text that starts with a letter: the first key letter is read
    from the output, which is still empty. *)
Theorem autokey_decrypt_empty_key_raises (c : ascii) (text : str) :
  isalpha c = true →
  Autokey.decrypt (c :: text) [] = Raise IndexError.
Proof.
  intros Ha. unfold Autokey.decrypt, enumerate, range.
  rewrite seqZ_cons by (unfold len; simpl; lia).
  cbn [zip_with]. rewrite for_each_cons.
  assert (E : Autokey.decrypt_step [] (str_upper []) ([], 0) (0, c)
              = Raise IndexError).
  { unfold Autokey.decrypt_step. by rewrite Ha. }
  by rewrite E.
Qed.

Lemma autokey_decrypt_empty_key_raises_witness :
  Autokey.decrypt (lit "Attack") [] = Raise IndexError.
Proof.
  apply (autokey_decrypt_empty_key_raises "A" (lit "ttack")). reflexivity.
Defined.

(** * Further properties of the cryptanalysis toolkit *)

(** ** Repeated sequences, exactly *)

Lemma recorded_snoc (pos : list Z) (i : Z) :
  recorded (pos ++ [i]) = Some (pos ++ [i]).
Proof. by destruct pos. Qed.

(** One pass of the inner loop over the offsets in [seen]. *)
Lemma scan_loop_spec (text : str) (n : Z) (seen : list Z)
    (sequences : gmap str (list Z)) :
  sequences
  = fold_left
      (λ sequences i,
         let seq := slice text i (i + n) in
         if str_isalpha seq then Ngram.record sequences seq i else sequences)
      seen ∅ →
  ∀ seq,
    sequences !! seq
    = if str_isalpha seq
      then recorded (filter (λ i, slice text i (i + n) = seq) seen)
      else None.
Proof.
  intros ->.
  apply (fold_left_inv
           (λ sequences i,
              let seq := slice text i (i + n) in
              if str_isalpha seq then Ngram.record sequences seq i
              else sequences)
           (λ seen (sequences : gmap str (list Z)),
              ∀ seq, sequences !! seq
                     = if str_isalpha seq
                       then recorded
                              (filter (λ i, slice text i (i + n) = seq) seen)
                       else None)).
  - intros seq. rewrite lookup_empty. by destruct (str_isalpha seq).
  - intros done_ i m _ Hinv seq. cbv zeta.
    rewrite filter_app, filter_cons, filter_nil.
    destruct (str_isalpha (slice text i (i + n))) eqn:Hal.
    + unfold Ngram.record.
      destruct (decide (slice text i (i + n) = seq)) as [<-|Hne].
      * rewrite Hal. specialize (Hinv (slice text i (i + n))).
        rewrite Hal in Hinv. rewrite Hinv.
        destruct (filter _ done_) as [|x occ] eqn:Hocc; simpl.
        -- by rewrite lookup_insert_eq.
        -- rewrite lookup_insert_eq. by destruct occ.
      * rewrite app_nil_r, <- Hinv.
        destruct (m !! slice text i (i + n)); by rewrite lookup_insert_ne.
    + destruct (decide (slice text i (i + n) = seq)) as [<-|Hne].
      * rewrite Hal. specialize (Hinv (slice text i (i + n))).
        by rewrite Hal in Hinv.
      * by rewrite app_nil_r.
Qed.

Lemma scan_exact (text : str) (n : Z) (seq : str) :
  0 ≤ n →
  Ngram.scan text n !! seq
  = if decide (len seq = n)
    then (if str_isalpha seq then recorded (occurrences text seq) else None)
    else None.
Proof.
  intros Hn. unfold Ngram.scan.
  rewrite (scan_loop_spec text n _ _ eq_refl seq).
  destruct (decide (len seq = n)) as [<-|Hne]; [done|].
  destruct (str_isalpha seq); [|done].
  destruct (filter _ (range 0 (len text - n + 1))) as [|i occ] eqn:E; [done|].
  assert (Hi : i ∈ filter (λ i, slice text i (i + n) = seq)
                  (range 0 (len text - n + 1))).
  { rewrite E. apply list_elem_of_here. }
  apply list_elem_of_filter in Hi as [Heq Hi]. apply elem_of_range in Hi.
  exfalso. apply Hne. rewrite <- Heq. apply len_slice; lia.
Qed.

Lemma recorded_Some (occ pos : list Z) :
  recorded occ = Some pos ↔ pos = occ ∧ occ ≠ [].
Proof.
  destruct occ as [|x occ]; simpl; split.
  - intros [=].
  - by intros [_ ?].
  - by intros [= <-].
  - by intros [-> _].
Qed.

Lemma repeated_sequences_fold (text : str) (lengths : list Z)
    (seq : str) (pos : list Z) :
  (∀ n, n ∈ lengths → 0 ≤ n) →
  fold_left
    (λ (repeated_sequences : gmap str (list Z)) length,
       filter (λ kv : str * list Z, 1 < len kv.2) (Ngram.scan text length)
         ∪ repeated_sequences)
    lengths ∅ !! seq = Some pos
  ↔ len seq ∈ lengths ∧
    str_isalpha seq = true ∧
    pos = occurrences text seq ∧
    2 ≤ len pos.
Proof.
  intros Hpos. revert seq pos.
  apply (fold_left_inv
           (λ (repeated_sequences : gmap str (list Z)) length,
              filter (λ kv : str * list Z, 1 < len kv.2)
                (Ngram.scan text length) ∪ repeated_sequences)
           (λ (seen : list Z) (repeated : gmap str (list Z)),
              ∀ seq pos,
                repeated !! seq = Some pos
                ↔ len seq ∈ seen ∧
                  str_isalpha seq = true ∧
                  pos = occurrences text seq ∧
                  2 ≤ len pos)).
  - intros seq pos. rewrite lookup_empty, elem_of_nil.
    split; [intros [=]|by intros [[] _]].
  - intros seen n repeated Hpre Hinv seq pos.
    assert (Hn : 0 ≤ n).
    { apply Hpos. destruct Hpre as [rest ->]. rewrite !elem_of_app.
      left. right. left. }
    rewrite lookup_union_Some_raw, map_lookup_filter_Some,
      map_lookup_filter_None, Hinv, elem_of_app, list_elem_of_singleton.
    rewrite !scan_exact by lia. simpl.
    destruct (decide (len seq = n)) as [Hl|Hl].
    + destruct (str_isalpha seq).
      * rewrite recorded_Some. split.
        -- intros [[[-> Hne] Hlen]|[Hnone H]]; [split_and!; try done; auto; lia|].
           intuition.
        -- intros (_ & _ & -> & Hlen). left. split_and!; try done; [|lia].
           intros E. rewrite E in Hlen. unfold len in Hlen. simpl in Hlen. lia.
      * intuition congruence.
    + intuition congruence.
Qed.



(** ** The index of coincidence lies between 0 and 1 *)

Lemma counter_fold_insert (g : Z → Z) (counts : gmap ascii Z) (c : ascii)
    (x : Z) :
  map_fold (λ _ f acc, acc + g f) 0 (<[c := x]> counts)
  = map_fold (λ _ f acc, acc + g f) 0 (delete c counts) + g x.
Proof.
  rewrite <- insert_delete_eq.
  rewrite map_fold_insert_L; [done| |apply lookup_delete_eq].
  intros. lia.
Qed.

Lemma counter_fold_lookup (g : Z → Z) (counts : gmap ascii Z) (c : ascii)
    (x : Z) :
  counts !! c = Some x →
  map_fold (λ _ f acc, acc + g f) 0 counts
  = map_fold (λ _ f acc, acc + g f) 0 (delete c counts) + g x.
Proof.
  intros Hc. rewrite <- (insert_id counts c x Hc) at 1.
  apply counter_fold_insert.
Qed.

Lemma counter_fold_nonneg (g : Z → Z) (counts : gmap ascii Z) :
  (∀ c f, counts !! c = Some f → 0 ≤ g f) →
  0 ≤ map_fold (λ _ f acc, acc + g f) 0 counts.
Proof.
  induction counts as [|c x counts Hc IH] using map_ind; intros Hg.
  - by rewrite map_fold_empty.
  - rewrite counter_fold_insert, delete_id by done.
    assert (0 ≤ g x) by (apply (Hg c); apply lookup_insert_eq).
    assert (0 ≤ map_fold (λ _ f acc, acc + g f) 0 counts); [|lia].
    apply IH. intros c' f Hf. apply (Hg c').
    rewrite lookup_insert_ne; [done|]. intros ->. congruence.
Qed.

(** After [Counter] has consumed [n] characters: every count is at least 1,
    the counts add up to [n], and the sum of [f·(f−1)] stays between 0 and
    [n·(n−1)]. *)
Lemma counter_sums (text : str) :
  let counts := Ngram.Counter text in
  (∀ c f, counts !! c = Some f → 1 ≤ f) ∧
  map_fold (λ _ f acc, acc + f) 0 counts = len text ∧
  0 ≤ map_fold (λ _ f acc, acc + f * (f - 1)) 0 counts
    ≤ len text * (len text - 1).
Proof.
  unfold Ngram.Counter.
  apply (fold_left_inv
           (λ counts c, <[c := default 0 (counts !! c) + 1]> counts)
           (λ seen (counts : gmap ascii Z),
              (∀ c f, counts !! c = Some f → 1 ≤ f) ∧
              map_fold (λ _ f acc, acc + f) 0 counts = len seen ∧
              0 ≤ map_fold (λ _ f acc, acc + f * (f - 1)) 0 counts
                ≤ len seen * (len seen - 1))).
  - split_and!; [by intros c f; rewrite lookup_empty|..];
      rewrite ?map_fold_empty; unfold len; simpl; lia.
  - intros seen c counts _ (Hpos & Hsum & Hsq).
    assert (Hlen : len (seen ++ [c]) = len seen + 1).
    { unfold len. rewrite length_app. simpl. lia. }
    rewrite Hlen.
    rewrite (counter_fold_insert (λ f, f)), (counter_fold_insert (λ f, f * (f - 1))).
    assert (Hrest : 0 ≤ map_fold (λ _ f acc, acc + f) 0 (delete c counts)).
    { apply (counter_fold_nonneg (λ f, f)). intros c' f Hf.
      apply lookup_delete_Some in Hf as [_ Hf]. apply Hpos in Hf. lia. }
    assert (Hrest2 : 0 ≤ map_fold (λ _ f acc, acc + f * (f - 1)) 0
                           (delete c counts)).
    { apply (counter_fold_nonneg (λ f, f * (f - 1))). intros c' f Hf.
      apply lookup_delete_Some in Hf as [_ Hf]. apply Hpos in Hf. nia. }
    destruct (counts !! c) as [f|] eqn:Hc; simpl.
    + pose proof (Hpos c f Hc) as Hf.
      rewrite (counter_fold_lookup (λ f, f) counts c f Hc) in Hsum.
      rewrite (counter_fold_lookup (λ f, f * (f - 1)) counts c f Hc) in Hsq.
      split_and!; [|lia|nia|nia].
      intros c' f' Hf'. apply lookup_insert_Some in Hf' as [[_ <-]|[_ Hf']];
        [lia|by eapply Hpos].
    + rewrite delete_id in * by done.
      split_and!; [|lia|nia|nia].
      intros c' f' Hf'. apply lookup_insert_Some in Hf' as [[_ <-]|[_ Hf']];
        [lia|by eapply Hpos].
Qed.

(** X17. The index of coincidence is a probability: for every text,
    [index_of_coincidence] returns a value (it never raises), and the
    quotient it returns lies between 0 and 1. *)
Theorem index_of_coincidence_range (text : str) :
  ∃ q, Ngram.index_of_coincidence text = Ok q ∧ (0 <= q)%Q ∧ (q <= 1)%Q.
Proof.
  unfold Ngram.index_of_coincidence.
  set (letters := filter (λ c, isalpha c = true) (str_upper text)).
  destruct (Z.leb_spec (len letters) 1) as [Hle|Hgt].
  - exists 0%Q. split; [done|]. split; discriminate.
  - destruct (counter_sums letters) as (_ & _ & Hlo & Hhi).
    set (num := map_fold (λ _ f acc, acc + f * (f - 1)) 0
                  (Ngram.Counter letters)) in *.
    set (den := len letters * (len letters - 1)) in *.
    assert (Hden : 0 < den) by (unfold den; nia).
    unfold Ngram.truediv. destruct (Z.eqb_spec den 0); [lia|].
    eexists. split; [reflexivity|].
    assert (Hd : (0 < inject_Z den)%Q).
    { change 0%Q with (inject_Z 0). by rewrite <- Zlt_Qlt. }
    split.
    + apply Qle_shift_div_l; [done|]. rewrite Qmult_0_l.
      change 0%Q with (inject_Z 0). by rewrite <- Zle_Qle.
    + apply Qle_shift_div_r; [done|]. rewrite Qmult_1_l.
      by rewrite <- Zle_Qle.
Qed.

(** ** Character n-grams *)



(** X19. Repeated sequences are repeated n-grams: for [min_length ≥ 1], a
    key [seq] of [find_repeated_sequences] with position list [pos] is an
    n-gram of the text for [n = len(seq)], and [pos] holds exactly the
    indices at which [get_ngrams(text, n)] has [seq]. *)
Theorem repeated_sequences_are_ngrams
    (text : str) (min_length max_length : Z) (seq : str) (pos : list Z) :
  1 ≤ min_length →
  Ngram.find_repeated_sequences text min_length max_length !! seq = Some pos →
  ∃ grams,
    Ngram.get_ngrams text (len seq) false = Ok grams ∧
    ∀ p : Z, p ∈ pos ↔ 0 ≤ p ∧ grams !! Z.to_nat p = Some seq.
Proof.
  intros Hmin Hlook.
  unfold Ngram.find_repeated_sequences in Hlook.
  apply repeated_sequences_fold in Hlook as (Hlen & _ & -> & _).
  2: { intros n Hn. apply elem_of_range in Hn. lia. }
  apply elem_of_range in Hlen.
  unfold Ngram.get_ngrams. destruct (Z.ltb_spec (len seq) 1); [lia|].
  eexists. split; [reflexivity|]. intros p.
  unfold occurrences. rewrite list_elem_of_filter, elem_of_range.
  rewrite list_lookup_fmap. unfold range. split.
  - intros (Heq & Hp0 & Hp). split; [done|].
    rewrite lookup_seqZ_lt by lia.
    replace (0 + Z.of_nat (Z.to_nat p)) with p by lia.
    simpl. by rewrite Heq.
  - intros [Hp0 Hp].
    destruct (seqZ 0 _ !! Z.to_nat p) as [j|] eqn:Hj; [|done].
    apply lookup_seqZ in Hj as [-> Hj]. simpl in Hp. injection Hp as Hp.
    replace (0 + Z.of_nat (Z.to_nat p)) with p in Hp by lia.
    split; [done|lia].
Qed.

Lemma repeated_sequences_are_ngrams_witness :
  ∃ grams,
    Ngram.get_ngrams (lit "abcab, abc") (len (lit "AB")) false = Ok grams ∧
    ∀ p : Z, p ∈ [0; 3; 7] ↔ 0 ≤ p ∧ grams !! Z.to_nat p = Some (lit "AB").
Proof.
  apply (repeated_sequences_are_ngrams (lit "abcab, abc") 2 3); [lia|].
  vm_compute. reflexivity.
Defined.

(** * Grids of the transposition ciphers *)

Section Grid.

Context {A : Type}.
Implicit Types (grid : list (list A)) (cells : list (Z * Z)).

Lemma grid_write_shape (R C : Z) grid (p : Z * Z) (v : A) :
  grid_shape R C grid → grid_shape R C (grid_write grid p v).
Proof.
  intros [Hl Hw]. unfold grid_write.
  destruct (grid !! Z.to_nat p.1) as [row|] eqn:Hrow; [|done].
  split.
  - unfold len. by rewrite length_insert.
  - intros r row' Hr. apply list_lookup_insert_Some in Hr
      as [(<- & <- & _)|[_ Hr]]; [|by eapply Hw].
    unfold len. rewrite length_insert. by apply (Hw _ _ Hrow).
Qed.

Lemma grid_cell_write (R C : Z) grid (p : Z * Z) (v : A) (r c : Z) :
  grid_shape R C grid →
  0 ≤ p.1 < R → 0 ≤ p.2 < C → 0 ≤ r → 0 ≤ c →
  grid_cell (grid_write grid p v) r c
  = if decide ((r, c) = p) then Some v else grid_cell grid r c.
Proof.
  intros [Hl Hw] Hp1 Hp2 Hr Hc. destruct p as [pr pc]. simpl in *.
  unfold grid_write, grid_cell. simpl.
  destruct (grid !! Z.to_nat pr) as [row|] eqn:Hrow.
  2: { apply lookup_ge_None in Hrow. unfold len in Hl. lia. }
  pose proof (Hw _ _ Hrow) as Hlen. unfold len in Hlen.
  pose proof (lookup_lt_Some _ _ _ Hrow) as Hlt.
  destruct (decide (r = pr)) as [->|Hne].
  - rewrite list_lookup_insert_eq by done.
    destruct (decide (c = pc)) as [->|Hnc].
    + rewrite list_lookup_insert_eq by lia. by rewrite decide_True.
    + rewrite list_lookup_insert_ne by lia. rewrite Hrow.
      by rewrite decide_False by congruence.
  - rewrite list_lookup_insert_ne by lia.
    by rewrite decide_False by congruence.
Qed.

(** A run of assignments to distinct cells of the grid: the shape is kept,
    every cell of the run holds its value, every other cell is as
    before. *)
Lemma write_all_spec (R C : Z) cells :
  NoDup cells →
  (∀ p, p ∈ cells → 0 ≤ p.1 < R ∧ 0 ≤ p.2 < C) →
  ∀ grid (vals : list A),
    grid_shape R C grid →
    length vals = length cells →
    grid_shape R C (write_all grid cells vals) ∧
    (∀ (k : nat) p v, cells !! k = Some p → vals !! k = Some v →
       grid_cell (write_all grid cells vals) p.1 p.2 = Some v) ∧
    (∀ r c, 0 ≤ r → 0 ≤ c → (r, c) ∉ cells →
       grid_cell (write_all grid cells vals) r c = grid_cell grid r c).
Proof.
  unfold write_all.
  induction 1 as [|p cells Hnotin Hnd IH]; intros Hin grid vals Hshape Hlen.
  - simpl. split_and!; [done| |done]. intros k p v Hk. by rewrite lookup_nil in Hk.
  - destruct vals as [|v vals]; [done|]. simpl in Hlen.
    cbn [zip_with fold_left]. cbn [fst snd].
    destruct (Hin p (list_elem_of_here _ _)) as [Hp1 Hp2].
    destruct (IH (λ q Hq, Hin q (list_elem_of_further _ _ _ Hq))
                (grid_write grid p v) vals
                (grid_write_shape R C grid p v Hshape) ltac:(lia))
      as (Hs & Hwr & Hun).
    split_and!; [done| |].
    + intros [|k] q w Hk Hv; simpl in *.
      * injection Hk as <-. injection Hv as <-.
        destruct p as [pr pc]. simpl in *.
        rewrite Hun by (done || lia).
        rewrite (grid_cell_write R C) by (done || simpl; lia).
        by rewrite decide_True.
      * by eapply Hwr.
    + intros r c Hr Hc Hnot. apply not_elem_of_cons in Hnot as [Hne Hnot].
      rewrite Hun by done.
      rewrite (grid_cell_write R C) by done.
      by rewrite decide_False.
Qed.

Lemma lookup_concat_uniform (R C : Z) grid (r c : Z) :
  grid_shape R C grid → 0 ≤ r → 0 ≤ c < C →
  concat grid !! Z.to_nat (r * C + c) = grid_cell grid r c.
Proof.
  intros [_ Hw] Hr Hc. unfold grid_cell.
  replace (Z.to_nat (r * C + c)) with (Z.to_nat r * Z.to_nat C + Z.to_nat c)%nat
    by nia.
  assert (HcN : (Z.to_nat c < Z.to_nat C)%nat) by lia.
  clear Hc Hr. revert Hw HcN.
  generalize (Z.to_nat r) (Z.to_nat c). clear r c. intros r c.
  revert r. induction grid as [|row grid IH]; intros r Hw Hc.
  - simpl. by rewrite !lookup_nil.
  - assert (Hrow : length row = Z.to_nat C).
    { specialize (Hw 0%nat row eq_refl). unfold len in Hw. lia. }
    simpl. destruct r as [|r]; simpl.
    + rewrite lookup_app_l by lia. done.
    + rewrite lookup_app_r by lia.
      replace (Z.to_nat C + r * Z.to_nat C + c - length row)%nat
        with (r * Z.to_nat C + c)%nat by lia.
      apply IH; [|done]. intros r' row' Hr'. by apply (Hw (S r')).
Qed.

Lemma length_concat_uniform (R C : Z) grid :
  grid_shape R C grid → 0 ≤ C → len (concat grid) = R * C.
Proof.
  intros [Hl Hw] HC. unfold len in *.
  rewrite (length_concat_const _ (Z.to_nat C)).
  - nia.
  - apply Forall_forall. intros row Hrow.
    apply list_elem_of_lookup in Hrow as [r Hr].
    specialize (Hw _ _ Hr). lia.
Qed.

(** A grid is determined by its shape and its cells. *)
Lemma grid_flatten (R C : Z) grid (target : list A) :
  grid_shape R C grid → 0 ≤ C →
  len target = R * C →
  (∀ r c, 0 ≤ r < R → 0 ≤ c < C →
     grid_cell grid r c = target !! Z.to_nat (r * C + c)) →
  concat grid = target.
Proof.
  intros Hshape HC Hlen Hcells.
  pose proof (length_concat_uniform R C grid Hshape HC) as Hcl.
  apply list_eq. intros i.
  destruct (decide (Z.of_nat i < R * C)) as [Hi|Hi].
  - assert (HCpos : 0 < C).
    { destruct (decide (C = 0)) as [->|]; [rewrite Z.mul_0_r in Hi; lia|lia]. }
    pose proof (Z.div_mod (Z.of_nat i) C ltac:(lia)) as Hdm.
    pose proof (Z.mod_pos_bound (Z.of_nat i) C HCpos) as Hm.
    assert (Hq : 0 ≤ Z.of_nat i / C < R).
    { split; [apply Z.div_pos; lia|]. apply Z.div_lt_upper_bound; lia. }
    assert (E : Z.of_nat i / C * C + Z.of_nat i mod C = Z.of_nat i) by lia.
    rewrite <- (Nat2Z.id i), <- E.
    rewrite (lookup_concat_uniform R C) by (done || lia).
    by apply Hcells.
  - rewrite !(proj2 (lookup_ge_None _ _)); [done|..]; unfold len in *; lia.
Qed.

End Grid.

Lemma concat_singletons {A} (l : list A) : concat ((λ x, [x]) <$> l) = l.
Proof.
  induction l as [|x l IH]; [done|].
  rewrite fmap_cons. cbn [concat]. by rewrite IH.
Qed.

(** ** Reading a grid *)

Lemma lookup_slice {A} (s : list A) (a n : Z) (c : nat) :
  0 ≤ a → Z.of_nat c < n → a + Z.of_nat c < len s →
  slice s a (a + n) !! c = s !! (Z.to_nat a + c)%nat.
Proof.
  intros Ha Hc Hlen. unfold slice, clamp_index, len in *.
  destruct (Z.ltb_spec a 0); [lia|].
  destruct (Z.ltb_spec (a + n) 0); [lia|].
  rewrite lookup_take_lt by lia. rewrite lookup_drop. f_equal. lia.
Qed.

(** The grid that [create_grid] cuts out of the padded text: row [r] is the
    slice that starts at [r · cols]. *)
Lemma chunk_grid_cell (text : str) (cols r c : Z) :
  0 < cols → 0 ≤ r → 0 ≤ c < cols → r * cols + c < len text →
  ∃ starts,
    range_step 0 (len text) cols = Ok starts ∧
    grid_cell (append_each (λ i, slice text i (i + cols)) starts []) r c
    = text !! Z.to_nat (r * cols + c).
Proof.
  intros Hcols Hr Hc Hlt. unfold range_step.
  destruct (Z.eqb_spec cols 0); [lia|].
  destruct (Z.ltb_spec 0 cols); [|lia].
  eexists. split; [reflexivity|].
  rewrite append_each_spec. simpl. unfold grid_cell.
  rewrite <- list_fmap_compose, list_lookup_fmap.
  rewrite lookup_seqZ_lt.
  2: { rewrite Z2Nat.id by lia.
       assert (r + 1 ≤ (len text - 0 + cols - 1) / cols); [|lia].
       apply Z.div_le_lower_bound; [lia|]. nia. }
  simpl. rewrite Z2Nat.id by lia.
  rewrite lookup_slice by (nia || lia). f_equal. nia.
Qed.


(** A loop that appends what it reads: the output lines up with the items
    read. *)
Lemma for_each_collect {A B C} (body : list C → A → result (list C))
    (g : A → list B) (Rel : B → C → Prop) (items : list A) :
  (∀ acc x, x ∈ items →
     ∃ vals, body acc x = Ok (acc ++ vals) ∧ Forall2 Rel (g x) vals) →
  ∀ acc, ∃ out,
    for_each body items acc = Ok (acc ++ out) ∧
    Forall2 Rel (items ≫= g) out.
Proof.
  induction items as [|x items IH]; intros Hbody acc.
  - exists []. simpl. by rewrite app_nil_r.
  - destruct (Hbody acc x (list_elem_of_here _ _)) as (vals & Hx & Hvals).
    destruct (IH (λ a y Hy, Hbody a y (list_elem_of_further _ _ _ Hy))
                (acc ++ vals)) as (out & Hout & Hrel).
    exists (vals ++ out). rewrite for_each_cons, Hx, bind_Ok, Hout.
    rewrite <- app_assoc. split; [done|].
    rewrite bind_cons. by apply Forall2_app.
Qed.


(** * Reading and writing a grid along a cell order *)

Lemma read_along_functional (C : Z) (P : str) (cells : list (Z * Z))
    (vals vals' : str) :
  read_along C P cells vals → read_along C P cells vals' → vals = vals'.
Proof.
  intros H. revert vals'. induction H as [|p v cells vals Hp _ IH].
  - intros vals' H'. by inversion H'.
  - intros vals' H'. inversion H' as [|? v' ? vals'' Hp' Hrest]; subst.
    f_equal; [congruence|by apply IH].
Qed.


Lemma concat_singleton_cells (l : list str) :
  Forall (λ s, length s = 1%nat) l → l = (λ x, [x]) <$> concat l.
Proof.
  induction 1 as [|s l Hs _ IH]; [done|].
  destruct s as [|x [|? ?]]; try done.
  change (concat ([x] :: l)) with (x :: concat l).
  rewrite fmap_cons. by f_equal.
Qed.

Section CellOrder.

Variables (R C : Z) (cells : list (Z * Z)).
Hypothesis HC : 0 < C.
Hypothesis Hnd : NoDup cells.
Hypothesis Hmem : ∀ p, p ∈ cells ↔ 0 ≤ p.1 < R ∧ 0 ≤ p.2 < C.

Lemma cell_index_lt (p : Z * Z) :
  p ∈ cells → Z.of_nat (cell_index C p) < R * C.
Proof.
  intros Hp. apply Hmem in Hp. unfold cell_index.
  assert (p.1 * C + p.2 < R * C) by nia. lia.
Qed.

Lemma cell_index_inj (p q : Z * Z) :
  p ∈ cells → q ∈ cells → cell_index C p = cell_index C q → p = q.
Proof.
  destruct p as [r c], q as [r' c']. intros Hp Hq E.
  apply Hmem in Hp, Hq. unfold cell_index in E. simpl in *.
  assert (r * C + c = r' * C + c') by lia.
  assert (r = r') by nia. subst r'. f_equal. lia.
Qed.

Lemma cell_index_surj (i : nat) :
  Z.of_nat i < R * C → ∃ p, p ∈ cells ∧ cell_index C p = i.
Proof.
  intros Hi. exists (Z.of_nat i / C, Z.of_nat i mod C).
  pose proof (Z.div_mod (Z.of_nat i) C ltac:(lia)) as Hdm.
  pose proof (Z.mod_pos_bound (Z.of_nat i) C HC) as Hm.
  split.
  - apply Hmem. simpl. split; [|done]. split.
    + apply Z.div_pos; lia.
    + apply Z.div_lt_upper_bound; lia.
  - unfold cell_index. simpl. lia.
Qed.

(** The positions visited are a rearrangement of [0 .. R·C - 1]. *)
Lemma cells_index_Permutation :
  cell_index C <$> cells ≡ₚ seq 0 (Z.to_nat (R * C)).
Proof.
  apply NoDup_Permutation.
  - apply NoDup_fmap_2_strong; [|done].
    intros p q Hp Hq. by apply cell_index_inj.
  - apply NoDup_seq.
  - intros i. rewrite list_elem_of_fmap, elem_of_seq. split.
    + intros (p & -> & Hp). apply cell_index_lt in Hp. lia.
    + intros [_ Hi]. destruct (cell_index_surj i) as (p & Hp & <-); [lia|].
      by exists p.
Qed.

Lemma length_cells : 0 ≤ R → len cells = R * C.
Proof.
  intros HR. pose proof (Permutation_length cells_index_Permutation) as H.
  rewrite length_fmap, length_seq in H. unfold len. nia.
Qed.

(** Reading every cell once gives a rearrangement of the text. *)
Lemma read_along_Permutation (P vals : str) :
  len P = R * C → read_along C P cells vals → vals ≡ₚ P.
Proof.
  intros HP Hrel.
  assert (Hc : Some <$> vals = (λ p, P !! cell_index C p) <$> cells).
  { clear -Hrel. induction Hrel as [|p v cells vals Hpv _ IH]; [done|].
    rewrite !fmap_cons. f_equal; [symmetry; exact Hpv|exact IH]. }
  assert (HPs : Some <$> P = (λ i, P !! i) <$> seq 0 (length P)).
  { clear. induction P as [|x P IH]; [done|].
    simpl. f_equal. rewrite <- fmap_S_seq, <- list_fmap_compose. apply IH. }
  assert (Hperm : Some <$> vals ≡ₚ Some <$> P).
  { rewrite Hc, HPs. replace (length P) with (Z.to_nat (R * C))
      by (unfold len in HP; lia).
    rewrite <- cells_index_Permutation, <- list_fmap_compose. done. }
  assert (Hback : ∀ l : str, default "X"%char <$> (Some <$> l) = l).
  { intros l. induction l as [|x l IH]; [done|].
    rewrite !fmap_cons. by f_equal. }
  apply (fmap_Permutation (default "X"%char)) in Hperm.
  by rewrite !Hback in Hperm.
Qed.

(** Two texts that read the same along the cell order are equal. *)
Lemma read_along_unique (P Q vals : str) :
  len P = R * C → len Q = R * C →
  read_along C P cells vals → read_along C Q cells vals → P = Q.
Proof.
  intros HP HQ HrP HrQ. apply list_eq. intros i.
  destruct (decide (Z.of_nat i < R * C)) as [Hi|Hi].
  - destruct (cell_index_surj i Hi) as (p & Hp & <-).
    apply list_elem_of_lookup in Hp as [k Hk].
    destruct (Forall2_lookup_l _ _ _ _ _ HrP Hk) as (v & Hv & HPv).
    destruct (Forall2_lookup_l _ _ _ _ _ HrQ Hk) as (v' & Hv' & HQv).
    simpl in *. congruence.
  - rewrite !lookup_ge_None_2; [done|unfold len in *; lia..].
Qed.

(** Writing [vals] into the cells, one character per cell, and reading
    the grid row by row gives a text that reads [vals] along the cells. *)
Lemma write_all_read (grid0 : list (list str)) (vals : str) :
  0 ≤ R → grid_shape R C grid0 → length vals = length cells →
  ∃ out,
    fold_left (λ result row, result ++ row)
      (write_all grid0 cells ((λ c, [c]) <$> vals)) []
    = (λ x, [x]) <$> out ∧
    len out = R * C ∧ read_along C out cells vals.
Proof.
  intros HR Hg0 Hlen.
  destruct (write_all_spec R C cells Hnd ltac:(by intros p Hp; apply Hmem)
              grid0 ((λ c, [c]) <$> vals) Hg0 ltac:(by rewrite length_fmap))
    as (Hshape & Hset & _).
  set (grid := write_all grid0 cells ((λ c, [c]) <$> vals)) in *.
  rewrite (fold_left_append _ id) by done. rewrite app_nil_l.
  assert (E : grid ≫= id = concat grid).
  { clear. induction grid as [|row grid IH]; [done|].
    by rewrite bind_cons, IH. }
  rewrite E.
  assert (Hcell : ∀ p, p ∈ cells →
            ∃ v, concat grid !! cell_index C p = Some [v] ∧
                 ∃ k, cells !! k = Some p ∧ vals !! k = Some v).
  { intros p Hp. pose proof Hp as Hin. apply Hmem in Hin.
    apply list_elem_of_lookup in Hp as [k Hk].
    destruct (lookup_lt_is_Some_2 vals k) as [v Hv].
    { rewrite Hlen. by eapply lookup_lt_Some. }
    exists v. split; [|by exists k].
    unfold cell_index.
    rewrite (lookup_concat_uniform R C) by (done || lia).
    apply (Hset k p [v] Hk). by rewrite list_lookup_fmap, Hv. }
  pose proof (length_concat_uniform R C grid Hshape ltac:(lia)) as Hlg.
  assert (Hsingle : Forall (λ s, length s = 1%nat) (concat grid)).
  { apply Forall_lookup. intros i s Hi.
    destruct (cell_index_surj i) as (p & Hp & <-).
    { apply lookup_lt_Some in Hi. unfold len in Hlg. lia. }
    destruct (Hcell p Hp) as (v & Hv & _). rewrite Hv in Hi.
    by injection Hi as <-. }
  exists (concat (concat grid)). split; [by apply concat_singleton_cells|].
  split.
  - rewrite (concat_singleton_cells _ Hsingle) in Hlg.
    unfold len in *. by rewrite length_fmap in Hlg.
  - apply Forall2_same_length_lookup_2; [done|].
    intros k p v Hk Hv.
    assert (Hp : p ∈ cells) by by eapply list_elem_of_lookup_2.
    pose proof Hp as Hin. apply Hmem in Hin.
    assert (Hg : concat grid !! cell_index C p = Some [v]).
    { unfold cell_index.
      rewrite (lookup_concat_uniform R C) by (done || lia).
      apply (Hset k p [v] Hk). by rewrite list_lookup_fmap, Hv. }
    rewrite (concat_singleton_cells _ Hsingle), list_lookup_fmap in Hg.
    destruct (concat (concat grid) !! cell_index C p) as [w|]; [|done].
    simpl in Hg. congruence.
Qed.

End CellOrder.

(** * Myszkowski: encryption and the round trip *)



(** A text of upper-case letters and digits is its own canonical form. *)
Lemma canonical_id (text : str) :
  Forall (λ c, isalnum c = true ∧ upper c = c) text → canonical text = text.
Proof.
  unfold canonical. induction 1 as [|c text [Hc Hu] _ IH]; [done|].
  rewrite filter_cons_True by done. rewrite fmap_cons. by f_equal.
Qed.







Lemma write_all_snoc {A} (grid : list (list A)) (cells : list (Z * Z))
    (vals : list A) (p : Z * Z) (v : A) :
  length vals = length cells →
  write_all grid (cells ++ [p]) (vals ++ [v])
  = grid_write (write_all grid cells vals) p v.
Proof.
  intros Hlen. unfold write_all.
  rewrite zip_with_app by done. by rewrite fold_left_app.
Qed.

Lemma write_all_shape {A} (R C : Z) (cells : list (Z * Z)) :
  ∀ (vals : list A) (grid : list (list A)),
    grid_shape R C grid → grid_shape R C (write_all grid cells vals).
Proof.
  unfold write_all. induction cells as [|p cells IH]; intros vals grid Hg.
  - done.
  - destruct vals as [|v vals]; [done|]. simpl. apply IH.
    by apply grid_write_shape.
Qed.










(** * Route: encryption, decryption and the round trip *)

Lemma dict_get_Some {V} (name : string) (d : list (string * V)) :
  name ∈ d.*1 → ∃ v, Route.dict_get name d = Some v ∧ (name, v) ∈ d.
Proof.
  induction d as [|[k v] d IH]; intros Hin.
  - by apply elem_of_nil in Hin.
  - simpl. destruct (String.eqb_spec name k) as [->|Hne].
    + exists v. split; [done|left].
    + apply elem_of_cons in Hin as [Hin|Hin]; [done|].
      destruct (IH Hin) as (v' & -> & Hv'). exists v'. split; [done|by right].
Qed.

Lemma dict_get_None {V} (name : string) (d : list (string * V)) :
  name ∉ d.*1 → Route.dict_get name d = None.
Proof.
  induction d as [|[k v] d IH]; intros Hin; [done|].
  simpl. destruct (String.eqb_spec name k) as [->|Hne].
  - exfalso. apply Hin. left.
  - apply IH. intros H. apply Hin. by right.
Qed.

(** Every entry of the pattern table covers the grid exactly once. *)
Lemma route_pattern_covers (pattern : string) (rows cols : Z) :
  pattern ∈ Route.pattern_funcs.*1 →
  ∃ f, Route.dict_get pattern Route.pattern_funcs = Some f ∧
       covers_grid_once rows cols (f rows cols).
Proof.
  intros Hin. destruct (dict_get_Some _ _ Hin) as (f & Hf & Hmem).
  exists f. split; [done|].
  unfold Route.pattern_funcs in Hmem.
  repeat (apply elem_of_cons in Hmem as [Hmem|Hmem];
          [injection Hmem as _ ->|]).
  - apply spiral_inward_covers.
  - apply spiral_outward_covers.
  - apply snake_pattern_covers.
  - apply diagonal_pattern_covers.
  - by apply elem_of_nil in Hmem.
Qed.

(** The text in the grid of [encrypt]: the padded text, of which the
    route reads the first [rows · cols] characters. *)
Lemma route_create_grid_spec (text : str) (rows cols : Z) :
  1 ≤ rows → 1 ≤ cols →
  let P := padded text (rows * cols - len (canonical text)) in
  rows * cols ≤ len P ∧
  ∃ grid,
    Route.create_grid text rows cols = Ok grid ∧
    ∀ r c, 0 ≤ r < rows → 0 ≤ c < cols →
      grid_cell grid r c = P !! cell_index cols (r, c).
Proof.
  intros Hrows Hcols P.
  pose proof (len_nonneg (canonical text)) as Hn.
  assert (HP : rows * cols ≤ len P).
  { unfold P, padded, len. rewrite length_app, length_replicate.
    unfold len in Hn. lia. }
  split; [done|].
  unfold Route.create_grid. fold (canonical text).
  assert (E : (if 0 <? rows * cols - len (canonical text)
               then canonical text
                    ++ replicate (Z.to_nat (rows * cols - len (canonical text)))
                         "X"%char
               else canonical text) = P).
  { unfold P, padded.
    destruct (Z.ltb_spec 0 (rows * cols - len (canonical text))); [done|].
    replace (Z.to_nat (rows * cols - len (canonical text))) with 0%nat by lia.
    simpl. by rewrite app_nil_r. }
  rewrite E.
  destruct (chunk_grid_cell P cols 0 0) as (starts & Hst & _); [lia..|nia|].
  rewrite Hst, bind_Ok. eexists. split; [reflexivity|].
  intros r c Hr Hc.
  destruct (chunk_grid_cell P cols r c) as (starts' & Hst' & Hcell);
    [lia|lia|lia|nia|].
  rewrite Hst in Hst'. by injection Hst' as <-.
Qed.

Lemma bind_singleton {A} (l : list A) : l ≫= (λ x, [x]) = l.
Proof. induction l as [|x l IH]; [done|]. by rewrite bind_cons, IH. Qed.

Lemma route_encrypt_spec (text : str) (rows cols : Z) (pattern : string) :
  1 ≤ rows → 1 ≤ cols → pattern ∈ Route.pattern_funcs.*1 →
  ∃ f out,
    Route.dict_get pattern Route.pattern_funcs = Some f ∧
    Route.encrypt text rows cols pattern = Ok out ∧
    read_along cols
      (take (Z.to_nat (rows * cols))
         (padded text (rows * cols - len (canonical text))))
      (f rows cols) out.
Proof.
  intros Hrows Hcols Hpat.
  destruct (route_pattern_covers pattern rows cols Hpat) as (f & Hf & Hnd & Hmem).
  destruct (route_create_grid_spec text rows cols Hrows Hcols)
    as (HP & grid & Hgrid & Hcell).
  set (P := padded text (rows * cols - len (canonical text))) in *.
  exists f. unfold Route.encrypt.
  destruct (Z.ltb_spec rows 1); [lia|]. destruct (Z.ltb_spec cols 1); [lia|].
  cbn [orb]. rewrite Hgrid, bind_Ok, Hf.
  destruct (for_each_collect
              (λ result '(row, col),
                 r ← getitem grid row; c ← getitem r col; Ok (result ++ [c]))
              (λ p, [p])
              (λ p v, take (Z.to_nat (rows * cols)) P !! cell_index cols p = Some v)
              (f rows cols)) with (acc := @nil ascii) as (out & Hout & Hrel).
  { intros acc [r c] Hp. apply Hmem in Hp as [Hr Hc]. simpl in Hr, Hc.
    assert (Hlt : (cell_index cols (r, c) < Z.to_nat (rows * cols))%nat).
    { unfold cell_index. simpl. assert (r * cols + c < rows * cols) by nia. lia. }
    destruct (lookup_lt_is_Some_2 P (cell_index cols (r, c))) as [v Hv].
    { unfold len in HP. lia. }
    pose proof (Hcell r c Hr Hc) as Hg. rewrite Hv in Hg.
    unfold grid_cell in Hg.
    destruct (grid !! Z.to_nat r) as [row|] eqn:Hrow; [|done].
    destruct (getitem_ok grid r) as (row' & -> & Hrow').
    { apply lookup_lt_Some in Hrow. unfold len. lia. }
    rewrite bind_Ok. assert (row' = row) as -> by congruence.
    destruct (getitem_ok row c) as (v' & -> & Hv').
    { apply lookup_lt_Some in Hg. unfold len. lia. }
    rewrite bind_Ok. assert (v' = v) as -> by congruence.
    exists [v]. split; [done|]. constructor; [|constructor].
    by rewrite lookup_take_lt. }
  rewrite app_nil_l in Hout. rewrite bind_singleton in Hrel.
  exists out. by split.
Qed.

Lemma route_fill_writes (R C : Z) (cells : list (Z * Z)) :
  (∀ p, p ∈ cells → 0 ≤ p.1 < R ∧ 0 ≤ p.2 < C) →
  ∀ (text : str) (grid : list (list str)),
    grid_shape R C grid →
    for_each
      (λ (grid : list (list str)) '((row, col), char),
         r ← getitem grid row;
         r ← setitem r col [char];
         setitem grid row r)
      (zip cells text) grid
    = Ok (write_all grid cells ((λ c, [c]) <$> text)).
Proof.
  induction cells as [|[row col] cells IH]; intros Hcells text grid Hgrid.
  - done.
  - destruct text as [|c text]; [done|].
    change (zip ((row, col) :: cells) (c :: text))
      with (((row, col), c) :: zip cells text).
    rewrite for_each_cons.
    destruct (Hcells (row, col)) as [Hrow Hcol]; [left|]. simpl in Hrow, Hcol.
    destruct Hgrid as [Hl Hw].
    destruct (getitem_ok grid row) as (r & -> & Hr); [lia|].
    rewrite bind_Ok. pose proof (Hw _ _ Hr) as Hwr.
    rewrite (setitem_ok r col) by lia. rewrite bind_Ok.
    rewrite (setitem_ok grid row) by lia. rewrite bind_Ok.
    assert (E : <[Z.to_nat row := <[Z.to_nat col := [c]]> r]> grid
                = grid_write grid (row, col) [c]).
    { unfold grid_write. cbn [fst snd]. by rewrite Hr. }
    rewrite E, IH.
    + done.
    + intros p Hp. apply Hcells. by right.
    + by apply grid_write_shape.
Qed.

Lemma route_decrypt_spec (text : str) (rows cols : Z) (pattern : string) :
  1 ≤ rows → 1 ≤ cols → rows * cols = len text →
  pattern ∈ Route.pattern_funcs.*1 →
  ∃ f out,
    Route.dict_get pattern Route.pattern_funcs = Some f ∧
    Route.decrypt text rows cols pattern = Ok out ∧
    len out = rows * cols ∧
    read_along cols out (f rows cols) text.
Proof.
  intros Hrows Hcols Hlen Hpat.
  destruct (route_pattern_covers pattern rows cols Hpat) as (f & Hf & Hnd & Hmem).
  exists f. unfold Route.decrypt.
  destruct (Z.ltb_spec rows 1); [lia|]. destruct (Z.ltb_spec cols 1); [lia|].
  cbn [orb]. destruct (Z.eqb_spec (rows * cols) (len text)); [|lia].
  cbn [negb]. rewrite Hf.
  set (grid0 := replicate (Z.to_nat rows) (replicate (Z.to_nat cols) ([] : str))).
  assert (Hg0 : grid_shape rows cols grid0).
  { split.
    - unfold len, grid0. rewrite length_replicate. lia.
    - intros r row Hr. apply lookup_replicate in Hr as [-> _].
      unfold len. rewrite length_replicate. lia. }
  rewrite (route_fill_writes rows cols); [|by intros p Hp; apply Hmem|done].
  rewrite bind_Ok.
  pose proof (length_cells rows cols _ ltac:(lia) Hnd Hmem ltac:(lia)) as Hlc.
  destruct (write_all_read rows cols _ ltac:(lia) Hnd Hmem grid0 text
              ltac:(lia) Hg0) as (out & Hout & Hlo & Hread).
  { unfold len in *. lia. }
  exists out. rewrite Hout, concat_singletons. done.
Qed.





Lemma route_encrypt_cases (text : str) (rows cols : Z) (pattern : string) :
  ((rows < 1 ∨ cols < 1 ∨ pattern ∉ Route.pattern_funcs.*1) ∧
   Route.encrypt text rows cols pattern = Raise ValueError) ∨
  (¬ (rows < 1 ∨ cols < 1 ∨ pattern ∉ Route.pattern_funcs.*1) ∧
   ∃ out, Route.encrypt text rows cols pattern = Ok out).
Proof.
  destruct (decide (rows < 1 ∨ cols < 1 ∨ pattern ∉ Route.pattern_funcs.*1))
    as [Hbad|Hok]; [left|right]; (split; [done|]).
  - unfold Route.encrypt.
    destruct (Z.ltb_spec rows 1); [reflexivity|].
    destruct (Z.ltb_spec cols 1); [reflexivity|]. cbn [orb].
    destruct (route_create_grid_spec text rows cols) as (_ & grid & -> & _);
      [lia..|].
    rewrite bind_Ok, dict_get_None; [done|]. intuition lia.
  - destruct (route_encrypt_spec text rows cols pattern)
      as (f & out & _ & -> & _); [lia|lia| |by exists out].
    destruct (decide (pattern ∈ Route.pattern_funcs.*1)); [done|].
    exfalso. apply Hok. auto.
Qed.

Lemma route_decrypt_cases (text : str) (rows cols : Z) (pattern : string) :
  ((rows < 1 ∨ cols < 1 ∨ rows * cols ≠ len text
    ∨ pattern ∉ Route.pattern_funcs.*1) ∧
   Route.decrypt text rows cols pattern = Raise ValueError) ∨
  (¬ (rows < 1 ∨ cols < 1 ∨ rows * cols ≠ len text
      ∨ pattern ∉ Route.pattern_funcs.*1) ∧
   ∃ out, Route.decrypt text rows cols pattern = Ok out).
Proof.
  destruct (decide (rows < 1 ∨ cols < 1 ∨ rows * cols ≠ len text
                    ∨ pattern ∉ Route.pattern_funcs.*1))
    as [Hbad|Hok]; [left|right]; (split; [done|]).
  - unfold Route.decrypt.
    destruct (Z.ltb_spec rows 1); [reflexivity|].
    destruct (Z.ltb_spec cols 1); [reflexivity|]. cbn [orb].
    destruct (Z.eqb_spec (rows * cols) (len text)); [|reflexivity]. cbn [negb].
    rewrite dict_get_None; [done|]. intuition lia.
  - destruct (route_decrypt_spec text rows cols pattern)
      as (f & out & _ & -> & _); [lia|lia|lia| |by exists out].
    destruct (decide (pattern ∈ Route.pattern_funcs.*1)); [done|].
    exfalso. apply Hok. auto.
Qed.

(** X25. The errors of Route. [encrypt] raises [ValueError] exactly when
    [rows < 1], [cols < 1] or the pattern is not one of the four names;
    [decrypt] also when [rows · cols ≠ len(text)]. Neither raises
    anything else: in every other case they return. *)
Theorem route_errors (text : str) (rows cols : Z) (pattern : string) :
  (Route.encrypt text rows cols pattern = Raise ValueError ↔
     rows < 1 ∨ cols < 1 ∨ pattern ∉ Route.pattern_funcs.*1) ∧
  (Route.decrypt text rows cols pattern = Raise ValueError ↔
     rows < 1 ∨ cols < 1 ∨ rows * cols ≠ len text
     ∨ pattern ∉ Route.pattern_funcs.*1) ∧
  (∀ e, Route.encrypt text rows cols pattern = Raise e → e = ValueError) ∧
  (∀ e, Route.decrypt text rows cols pattern = Raise e → e = ValueError).
Proof.
  destruct (route_encrypt_cases text rows cols pattern)
    as [[Hbad He]|[Hok [out He]]];
    destruct (route_decrypt_cases text rows cols pattern)
      as [[Hbad' Hd]|[Hok' [out' Hd]]];
    rewrite He, Hd; split_and!; try done; try (intros e; congruence).
Qed.

(** X26. Route, the other way round: a ciphertext of [rows · cols]
    upper-case letters and digits is got back by encrypting its
    decryption with the same grid and pattern. *)
Theorem route_decrypt_then_encrypt (cipher : str) (rows cols : Z)
    (pattern : string) :
  1 ≤ rows → 1 ≤ cols → pattern ∈ Route.pattern_funcs.*1 →
  Forall (λ c, isalnum c = true ∧ upper c = c) cipher →
  rows * cols = len cipher →
  ∃ plain,
    Route.decrypt cipher rows cols pattern = Ok plain ∧
    Route.encrypt plain rows cols pattern = Ok cipher.
Proof.
  intros Hrows Hcols Hpat Hcanon Hlen.
  destruct (route_pattern_covers pattern rows cols Hpat) as (f & Hf & Hnd & Hmem).
  destruct (route_decrypt_spec cipher rows cols pattern Hrows Hcols Hlen Hpat)
    as (f' & plain & Hf' & Hdec & Hlp & Hread).
  assert (f' = f) as -> by congruence.
  assert (Hperm : cipher ≡ₚ plain).
  { by apply (read_along_Permutation rows cols (f rows cols)
                ltac:(lia) Hnd Hmem). }
  assert (Hcp : canonical plain = plain).
  { apply canonical_id. by rewrite <- Hperm. }
  exists plain. split; [done|].
  destruct (route_encrypt_spec plain rows cols pattern Hrows Hcols Hpat)
    as (f' & out & Hf'' & -> & Hrel).
  assert (f' = f) as -> by congruence.
  rewrite Hcp, Hlp, Z.sub_diag in Hrel.
  unfold padded in Hrel. rewrite Hcp in Hrel. simpl in Hrel.
  rewrite app_nil_r in Hrel.
  replace (Z.to_nat (rows * cols)) with (length plain) in Hrel
    by (rewrite <- Hlp; unfold len; lia).
  rewrite firstn_all in Hrel. f_equal.
  by apply (read_along_functional cols plain (f rows cols)).
Qed.

Lemma route_decrypt_then_encrypt_witness :
  ∃ plain,
    Route.decrypt (lit "HELLO123") 2 4 "spiral_out" = Ok plain ∧
    Route.encrypt plain 2 4 "spiral_out" = Ok (lit "HELLO123").
Proof.
  apply (route_decrypt_then_encrypt (lit "HELLO123") 2 4 "spiral_out").
  - lia.
  - lia.
  - vm_compute. right. left.
  - repeat constructor.
  - reflexivity.
Defined.

(** * Rail Fence: decryption and the round trip *)

Lemma zig_state_S (rails : Z) (k : nat) :
  zig_state rails (S k) = zig_next rails (zig_state rails k).
Proof. done. Qed.

Lemma zig_state_range (rails : Z) (k : nat) :
  2 ≤ rails →
  0 ≤ (zig_state rails k).1 < rails ∧
  ((zig_state rails k).2 = 1 ∨ (zig_state rails k).2 = -1).
Proof.
  intros Hrails. induction k as [|k IH].
  - simpl. lia.
  - rewrite zig_state_S. destruct (zig_state rails k) as [rail direction].
    simpl in *.
    destruct (Z.eqb_spec rail 0); [lia|].
    destruct (Z.eqb_spec rail (rails - 1)); lia.
Qed.

Lemma zigzag_cells_S (rails : Z) (k : nat) :
  zigzag_cells rails (S k)
  = zigzag_cells rails k ++ [((zig_state rails k).1, Z.of_nat k)].
Proof. unfold zigzag_cells. by rewrite seq_S, fmap_app. Qed.

Lemma length_zigzag_cells (rails : Z) (n : nat) :
  length (zigzag_cells rails n) = n.
Proof. unfold zigzag_cells. by rewrite length_fmap, length_seq. Qed.

Lemma lookup_zigzag_cells (rails : Z) (n k : nat) :
  (k < n)%nat →
  zigzag_cells rails n !! k = Some ((zig_state rails k).1, Z.of_nat k).
Proof.
  intros Hk. unfold zigzag_cells.
  by rewrite list_lookup_fmap, lookup_seq_lt.
Qed.

Lemma elem_of_zigzag_cells (rails : Z) (n : nat) (p : Z * Z) :
  p ∈ zigzag_cells rails n ↔
  0 ≤ p.2 < Z.of_nat n ∧ p.1 = (zig_state rails (Z.to_nat p.2)).1.
Proof.
  unfold zigzag_cells. rewrite list_elem_of_fmap. split.
  - intros (k & -> & Hk). apply elem_of_seq in Hk. simpl.
    rewrite Nat2Z.id. split; [lia|done].
  - intros [Hc Hr]. exists (Z.to_nat p.2). split.
    + destruct p as [r c]. simpl in *. rewrite Hr. f_equal. lia.
    + apply elem_of_seq. lia.
Qed.

Lemma NoDup_zigzag_cells (rails : Z) (n : nat) : NoDup (zigzag_cells rails n).
Proof.
  unfold zigzag_cells. apply NoDup_fmap_2_strong; [|apply NoDup_seq].
  intros j k _ _ E. injection E as _ E. lia.
Qed.

Lemma zigzag_cells_in_fence (rails : Z) (n : nat) (p : Z * Z) :
  2 ≤ rails → p ∈ zigzag_cells rails n →
  0 ≤ p.1 < rails ∧ 0 ≤ p.2 < Z.of_nat n.
Proof.
  intros Hrails Hp. apply elem_of_zigzag_cells in Hp as [Hc ->].
  split; [|done]. by apply zig_state_range.
Qed.

(** A loop over the columns that writes one value per column at the rail
    pointer writes the values into the zigzag cells. *)
Lemma zigzag_write_loop
    (step : list str * Z * Z → Z → result (list str * Z * Z))
    (rails : Z) (vals : str) (fence0 : list str) :
  2 ≤ rails →
  (∀ (fence : list str) (k : nat) (v : ascii),
     grid_shape rails (len vals) fence → vals !! k = Some v →
     step (fence, (zig_state rails k).1, (zig_state rails k).2) (Z.of_nat k)
     = Ok (grid_write fence ((zig_state rails k).1, Z.of_nat k) v,
           (zig_state rails (S k)).1, (zig_state rails (S k)).2)) →
  grid_shape rails (len vals) fence0 →
  for_each step (range 0 (len vals)) (fence0, 0, 1)
  = Ok (write_all fence0 (zigzag_cells rails (length vals)) vals,
        (zig_state rails (length vals)).1, (zig_state rails (length vals)).2).
Proof.
  intros Hrails Hstep Hshape.
  destruct (for_each_inv step
              (λ seen st,
                 st = (write_all fence0 (zigzag_cells rails (length seen))
                         (take (length seen) vals),
                       (zig_state rails (length seen)).1,
                       (zig_state rails (length seen)).2))
              (range 0 (len vals)) (fence0, 0, 1)) as (st & -> & ->).
  - done.
  - intros seen i st Hpre ->.
    apply range_prefix_snoc in Hpre as [-> Hi].
    rewrite length_app, length_range. simpl.
    replace (Z.to_nat (i - 0)) with (Z.to_nat i) by lia.
    rewrite Nat.add_1_r.
    destruct (lookup_lt_is_Some_2 vals (Z.to_nat i)) as [v Hv];
      [unfold len in Hi; lia|].
    pose proof (Hstep (write_all fence0 (zigzag_cells rails (Z.to_nat i))
                         (take (Z.to_nat i) vals)) (Z.to_nat i) v
                  ltac:(by apply write_all_shape) Hv) as Hs.
    rewrite Z2Nat.id in Hs by lia.
    eexists. split; [exact Hs|].
    rewrite zigzag_cells_S, (take_S_r _ _ _ Hv), Z2Nat.id by lia.
    rewrite write_all_snoc; [done|].
    rewrite length_take, length_zigzag_cells. unfold len in Hi. lia.
  - rewrite length_range. replace (Z.to_nat (len vals - 0)) with (length vals)
      by (unfold len; lia).
    by rewrite firstn_all.
Qed.

Lemma create_fence_step_writes (text : str) (rails : Z) (fence : list str)
    (k : nat) (v : ascii) :
  2 ≤ rails → grid_shape rails (len text) fence → text !! k = Some v →
  RailFence.create_fence_step text rails
    (fence, (zig_state rails k).1, (zig_state rails k).2) (Z.of_nat k)
  = Ok (grid_write fence ((zig_state rails k).1, Z.of_nat k) v,
        (zig_state rails (S k)).1, (zig_state rails (S k)).2).
Proof.
  intros Hrails [Hl Hw] Hv. pose proof (lookup_lt_Some _ _ _ Hv) as Hk.
  destruct (zig_state_range rails k Hrails) as [Hrail _].
  rewrite zig_state_S. destruct (zig_state rails k) as [rail direction].
  simpl in Hrail. unfold RailFence.create_fence_step, zig_next. cbn [fst snd].
  destruct (getitem_ok text (Z.of_nat k)) as (c & -> & Hc); [unfold len; lia|].
  rewrite Nat2Z.id in Hc. assert (c = v) as -> by congruence.
  rewrite bind_Ok.
  destruct (getitem_ok fence rail) as (row & -> & Hrow); [lia|].
  rewrite bind_Ok. pose proof (Hw _ _ Hrow) as Hwr.
  rewrite (setitem_ok row) by (unfold len in *; lia). rewrite bind_Ok.
  rewrite (setitem_ok fence) by lia. rewrite bind_Ok.
  unfold grid_write. cbn [fst snd]. by rewrite Hrow.
Qed.

Lemma mark_step_writes (n rails : Z) (fence : list str) (k : nat) :
  2 ≤ rails → grid_shape rails n fence → Z.of_nat k < n →
  RailFence.mark_step rails
    (fence, (zig_state rails k).1, (zig_state rails k).2) (Z.of_nat k)
  = Ok (grid_write fence ((zig_state rails k).1, Z.of_nat k) RailFence.star,
        (zig_state rails (S k)).1, (zig_state rails (S k)).2).
Proof.
  intros Hrails [Hl Hw] Hk.
  destruct (zig_state_range rails k Hrails) as [Hrail _].
  rewrite zig_state_S. destruct (zig_state rails k) as [rail direction].
  simpl in Hrail. unfold RailFence.mark_step, zig_next. cbn [fst snd].
  destruct (getitem_ok fence rail) as (row & -> & Hrow); [lia|].
  rewrite bind_Ok. pose proof (Hw _ _ Hrow) as Hwr.
  rewrite (setitem_ok row) by (unfold len in *; lia). rewrite bind_Ok.
  rewrite (setitem_ok fence) by lia. rewrite bind_Ok.
  unfold grid_write. cbn [fst snd]. by rewrite Hrow.
Qed.

(** The empty fence. *)
Lemma empty_fence_shape (rails : Z) (n : nat) :
  0 ≤ rails →
  grid_shape rails (Z.of_nat n)
    (replicate (Z.to_nat rails) (replicate n RailFence.newline)).
Proof.
  intros Hrails. split.
  - unfold len. rewrite length_replicate. lia.
  - intros r row Hr. apply lookup_replicate in Hr as [-> _].
    unfold len. by rewrite length_replicate.
Qed.

Lemma empty_fence_cell (rails : Z) (n : nat) (r c : Z) :
  0 ≤ r < rails → 0 ≤ c < Z.of_nat n →
  grid_cell (replicate (Z.to_nat rails) (replicate n RailFence.newline)) r c
  = Some RailFence.newline.
Proof.
  intros Hr Hc. unfold grid_cell.
  rewrite lookup_replicate_2 by lia. apply lookup_replicate_2. lia.
Qed.

Lemma row_major_spec (R C : Z) :
  NoDup (row_major R C) ∧
  ∀ p, p ∈ row_major R C ↔ 0 ≤ p.1 < R ∧ 0 ≤ p.2 < C.
Proof.
  unfold row_major. split.
  - apply (NoDup_tagged_bind fst).
    + apply NoDup_range.
    + intros i. apply NoDup_fmap_2; [|apply NoDup_range].
      intros j k E. by injection E.
    + intros i p Hp. by apply elem_of_row_cells in Hp as [? _].
  - intros p. rewrite list_elem_of_bind. split.
    + intros (i & Hp & Hi). apply elem_of_row_cells in Hp as [-> Hc].
      apply elem_of_range in Hi, Hc. lia.
    + intros [Hr Hc]. exists p.1. split.
      * apply elem_of_row_cells. split; [done|]. apply elem_of_range. lia.
      * apply elem_of_range. lia.
Qed.

Lemma rail_cells_spec (rails : Z) (n : nat) :
  2 ≤ rails →
  rail_cells rails n ≡ₚ zigzag_cells rails n.
Proof.
  intros Hrails. destruct (row_major_spec rails (Z.of_nat n)) as [Hnd Hmem].
  apply NoDup_Permutation.
  - by apply NoDup_filter.
  - apply NoDup_zigzag_cells.
  - intros p. unfold rail_cells. rewrite list_elem_of_filter, Hmem.
    split; [by intros [? _]|]. intros Hp. split; [done|].
    by apply zigzag_cells_in_fence.
Qed.

Lemma rail_order_spec (rails : Z) (n : nat) :
  2 ≤ rails →
  NoDup (rail_order rails n) ∧
  ∀ p, p ∈ rail_order rails n ↔ 0 ≤ p.1 < 1 ∧ 0 ≤ p.2 < Z.of_nat n.
Proof.
  intros Hrails. pose proof (rail_cells_spec rails n Hrails) as Hperm.
  unfold rail_order. split.
  - apply NoDup_fmap_2_strong.
    + intros p q Hp Hq E. rewrite Hperm in Hp, Hq.
      apply elem_of_zigzag_cells in Hp as [_ Hp], Hq as [_ Hq].
      injection E as E. destruct p, q. simpl in *. congruence.
    + rewrite Hperm. apply NoDup_zigzag_cells.
  - intros q. rewrite list_elem_of_fmap. split.
    + intros (p & -> & Hp). rewrite Hperm in Hp.
      apply elem_of_zigzag_cells in Hp as [Hp _]. simpl. lia.
    + intros [Hr Hc].
      exists ((zig_state rails (Z.to_nat q.2)).1, q.2). split.
      * destruct q as [r c]. simpl in *. f_equal. lia.
      * rewrite Hperm. by apply elem_of_zigzag_cells.
Qed.

Lemma length_rail_cells (rails : Z) (n : nat) :
  2 ≤ rails → length (rail_cells rails n) = n.
Proof.
  intros Hrails. by rewrite (rail_cells_spec rails n Hrails), length_zigzag_cells.
Qed.

(** The filling loops of [decrypt], flattened over the cells of the fence. *)
Lemma railfence_fill_loops_flatten (text : str) (rails n : Z)
    (st : list str * Z) :
  for_each (λ st i, for_each (RailFence.fill_step text i) (range 0 n) st)
    (range 0 rails) st
  = for_each (λ st p, RailFence.fill_step text p.1 st p.2)
      (row_major rails n) st.
Proof.
  unfold row_major. apply for_each_flatten. intros s i.
  by rewrite <- for_each_fmap.
Qed.

(** The filling loops put the text, character by character, into the
    marked cells, rail by rail. A cell not yet visited still holds what the
    marking loop left there. *)
Lemma railfence_fill_writes (text : str) (R C : Z) (marked : list (Z * Z))
    (fence : list str) (cells : list (Z * Z)) :
  NoDup cells →
  (∀ p, p ∈ cells → 0 ≤ p.1 < R ∧ 0 ≤ p.2 < C) →
  grid_shape R C fence →
  (∀ p, p ∈ cells →
     (p ∈ marked → grid_cell fence p.1 p.2 = Some RailFence.star) ∧
     (p ∉ marked → ∃ c, grid_cell fence p.1 p.2 = Some c ∧ c ≠ RailFence.star)) →
  (length (filter (λ p, p ∈ marked) cells) ≤ length text)%nat →
  for_each (λ st p, RailFence.fill_step text p.1 st p.2) cells (fence, 0)
  = Ok (write_all fence (filter (λ p, p ∈ marked) cells)
          (take (length (filter (λ p, p ∈ marked) cells)) text),
        len (filter (λ p, p ∈ marked) cells)).
Proof.
  intros Hnd Hin Hshape Hmark Hlen.
  destruct (for_each_inv (λ st p, RailFence.fill_step text p.1 st p.2)
              (λ seen st,
                 st = (write_all fence (filter (λ p, p ∈ marked) seen)
                         (take (length (filter (λ p, p ∈ marked) seen)) text),
                       len (filter (λ p, p ∈ marked) seen)))
              cells (fence, 0)) as (st & -> & ->); [done| |done].
  intros seen [r c] st Hpre ->.
  destruct Hpre as [rest Hcells].
  assert (Hp : (r, c) ∈ cells).
  { rewrite Hcells, !elem_of_app. left. right. left. }
  assert (Hfresh : (r, c) ∉ seen).
  { rewrite Hcells, <- app_assoc in Hnd. apply NoDup_app in Hnd as (_ & Hd & _).
    intros Hs. apply (Hd _ Hs). left. }
  assert (Hseen : ∀ q, q ∈ filter (λ p, p ∈ marked) seen →
                       0 ≤ q.1 < R ∧ 0 ≤ q.2 < C).
  { intros q Hq. apply list_elem_of_filter in Hq as [_ Hq]. apply Hin.
    rewrite Hcells, !elem_of_app. by left; left. }
  assert (Hcount : (length (filter (λ p, p ∈ marked) (seen ++ [(r, c)]))
                    ≤ length text)%nat).
  { rewrite Hcells, filter_app, length_app in Hlen. lia. }
  rewrite filter_app, length_app in Hcount.
  set (done_ := filter (λ p, p ∈ marked) seen) in *.
  destruct (Hin _ Hp) as [Hr Hc]. simpl in Hr, Hc.
  assert (Hdd : NoDup done_).
  { apply NoDup_filter. rewrite Hcells, <- app_assoc in Hnd.
    by apply NoDup_app in Hnd as (? & _). }
  destruct (write_all_spec R C done_ Hdd Hseen fence (take (length done_) text)
              Hshape ltac:(rewrite length_take; lia)) as (Hsh & _ & Hkeep).
  set (g := write_all fence done_ (take (length done_) text)) in *.
  assert (Hcell : grid_cell g r c = grid_cell fence r c).
  { apply Hkeep; [lia..|]. intros Hd. apply Hfresh.
    by apply list_elem_of_filter in Hd as [_ ?]. }
  destruct Hsh as [Hl Hw].
  unfold RailFence.fill_step. cbn [fst snd].
  destruct (getitem_ok g r) as (row & Hgr & Hrow); [lia|].
  rewrite Hgr, bind_Ok. pose proof (Hw _ _ Hrow) as Hwr.
  destruct (getitem_ok row c) as (cell & -> & Hcc); [lia|].
  rewrite bind_Ok.
  assert (Hgc : grid_cell g r c = Some cell).
  { unfold grid_cell. by rewrite Hrow. }
  rewrite Hcell in Hgc.
  destruct (Hmark _ Hp) as [Hyes Hno]. simpl in Hyes, Hno.
  rewrite filter_app, (filter_cons _ (r, c)), filter_nil.
  rewrite (filter_cons _ (r, c)), filter_nil in Hcount.
  destruct (decide ((r, c) ∈ marked)) as [Hm|Hm].
  - rewrite (Hyes Hm) in Hgc. injection Hgc as <-.
    simpl in Hcount.
    change (Ascii.eqb RailFence.star RailFence.star) with true. cbv iota.
    destruct (getitem_ok text (len done_)) as (v & -> & Hv);
      [unfold len; lia|].
    unfold len in Hv. rewrite Nat2Z.id in Hv.
    rewrite !bind_Ok.
    rewrite (setitem_ok row) by lia. rewrite bind_Ok.
    rewrite (setitem_ok g) by lia. rewrite bind_Ok.
    eexists. split; [reflexivity|]. fold done_. f_equal.
    + rewrite length_app. simpl. rewrite Nat.add_1_r, (take_S_r _ _ _ Hv).
      rewrite write_all_snoc by (rewrite length_take; lia).
      unfold grid_write. cbn [fst snd]. fold g. by rewrite Hrow.
    + unfold len. rewrite length_app. simpl. lia.
  - destruct (Hno Hm) as (c' & Hc' & Hne). rewrite Hc' in Hgc.
    injection Hgc as <-.
    destruct (Ascii.eqb_spec c' RailFence.star) as [|_]; [done|].
    eexists. split; [reflexivity|]. fold done_. by rewrite app_nil_r.
Qed.

(** The reading loop of [decrypt] reads the zigzag cells, column by
    column. *)
Lemma railfence_read_loop (fence : list str) (rails : Z) (n : nat) :
  2 ≤ rails → grid_shape rails (Z.of_nat n) fence →
  ∃ out st,
    for_each (RailFence.read_step fence rails) (range 0 (Z.of_nat n)) ([], 0, 1)
    = Ok (out, st.1, st.2) ∧
    Forall2 (λ p v, grid_cell fence p.1 p.2 = Some v) (zigzag_cells rails n) out.
Proof.
  intros Hrails [Hl Hw].
  destruct (for_each_inv (RailFence.read_step fence rails)
              (λ seen st,
                 (st.1.2, st.2) = zig_state rails (length seen) ∧
                 Forall2 (λ p v, grid_cell fence p.1 p.2 = Some v)
                   (zigzag_cells rails (length seen)) st.1.1)
              (range 0 (Z.of_nat n)) ([], 0, 1))
    as ([[out rail] direction] & Hrun & Hst & Hout).
  - split; [done|]. constructor.
  - intros seen i [[out rail] direction] Hpre [Hst Hout].
    apply range_prefix_snoc in Hpre as [-> Hi].
    rewrite length_app, length_range. rewrite length_range in Hst, Hout.
    cbn [fst snd length] in *.
    replace (Z.to_nat (i - 0)) with (Z.to_nat i) in * by lia.
    rewrite Nat.add_1_r.
    destruct (zig_state_range rails (Z.to_nat i) Hrails) as [Hrail _].
    rewrite <- Hst in Hrail. cbn [fst snd] in Hrail.
    unfold RailFence.read_step.
    destruct (getitem_ok fence rail) as (row & -> & Hrow); [lia|].
    rewrite bind_Ok. pose proof (Hw _ _ Hrow) as Hwr.
    destruct (getitem_ok row i) as (c & -> & Hc); [lia|].
    rewrite bind_Ok. eexists. split; [reflexivity|]. cbn [fst snd]. split.
    + by rewrite zig_state_S, <- Hst.
    + rewrite zigzag_cells_S. apply Forall2_app; [done|].
      constructor; [|constructor]. rewrite <- Hst. cbn [fst snd].
      unfold grid_cell. rewrite Hrow. by rewrite Nat2Z.id.
  - exists out, (rail, direction). split; [done|].
    rewrite length_range in Hout. cbn [fst snd] in Hout.
    by replace (Z.to_nat (Z.of_nat n - 0)) with n in Hout by lia.
Qed.

(** A grid is the list of its rows, a row the list of its cells. *)
Lemma grid_as_rows (R C : Z) (grid : list str) (d : ascii) :
  grid_shape R C grid →
  grid = (λ i, (λ j, default d (grid_cell grid i j)) <$> range 0 C)
           <$> range 0 R.
Proof.
  intros [Hl Hw]. apply list_eq. intros r. rewrite list_lookup_fmap.
  unfold range. destruct (grid !! r) as [row|] eqn:Hrow.
  - pose proof (lookup_lt_Some _ _ _ Hrow) as Hr.
    rewrite lookup_seqZ_lt by (unfold len in Hl; lia). simpl. f_equal.
    pose proof (Hw _ _ Hrow) as Hwr.
    apply list_eq. intros c. rewrite list_lookup_fmap.
    unfold grid_cell. rewrite Z.add_0_l, Nat2Z.id, Hrow.
    destruct (row !! c) as [x|] eqn:Hc.
    + pose proof (lookup_lt_Some _ _ _ Hc) as Hlt.
      rewrite lookup_seqZ_lt by (unfold len in Hwr; lia). simpl.
      by rewrite Z.add_0_l, Nat2Z.id, Hc.
    + apply lookup_ge_None_1 in Hc.
      rewrite lookup_seqZ_ge by (unfold len in Hwr; lia). done.
  - apply lookup_ge_None_1 in Hrow.
    rewrite lookup_seqZ_ge by (unfold len in Hl; lia). done.
Qed.

Lemma filter_fmap_ext {A B} (f : A → B) (P : A → Prop) (Q : B → Prop)
    `{∀ x, Decision (P x)} `{∀ y, Decision (Q y)} (l : list A) :
  (∀ x, x ∈ l → P x ↔ Q (f x)) →
  f <$> filter P l = filter Q (f <$> l).
Proof.
  induction l as [|x l IH]; intros Hext; [done|].
  rewrite fmap_cons, !filter_cons.
  assert (Hx : P x ↔ Q (f x)) by (apply Hext; left).
  assert (Hl : f <$> filter P l = filter Q (f <$> l)).
  { apply IH. intros y Hy. apply Hext. by right. }
  destruct (decide (P x)), (decide (Q (f x))); try tauto.
  by rewrite fmap_cons, Hl.
Qed.

(** What [read_off] keeps of a fence, in terms of its cells. *)
Lemma read_off_cells (R C : Z) (fence : list str) (M : Z * Z → Prop)
    `{∀ p, Decision (M p)} :
  grid_shape R C fence →
  (∀ p, 0 ≤ p.1 < R → 0 ≤ p.2 < C →
     M p ↔ default RailFence.newline (grid_cell fence p.1 p.2)
           ≠ RailFence.newline) →
  RailFence.read_off fence
  = (λ p, default RailFence.newline (grid_cell fence p.1 p.2))
      <$> filter M (row_major R C).
Proof.
  intros Hshape HM. rewrite read_off_spec.
  rewrite (grid_as_rows R C fence RailFence.newline Hshape) at 1.
  unfold row_major.
  assert (Hin : ∀ i, i ∈ range 0 R → 0 ≤ i < R)
    by (intros i Hi; by apply elem_of_range in Hi).
  revert Hin. generalize (range 0 R). intros rows Hin.
  induction rows as [|i rows IH]; [done|].
  rewrite fmap_cons, !bind_cons, filter_app, fmap_app. f_equal.
  - rewrite (list_fmap_compose (λ j, (i, j))
               (λ p, default RailFence.newline (grid_cell fence p.1 p.2))).
    symmetry. apply filter_fmap_ext. intros p Hp.
    apply elem_of_row_cells in Hp as [Hr Hc]. apply elem_of_range in Hc.
    apply HM; [|done]. rewrite Hr. apply Hin. left.
  - apply IH. intros j Hj. apply Hin. by right.
Qed.

Lemma cell_index_row (C c : Z) : cell_index C (0, c) = Z.to_nat c.
Proof. unfold cell_index. simpl. f_equal. Qed.

(** [encrypt] reads a text without ['\n'] along the rail order. *)
Lemma railfence_encrypt_spec (text : str) (rails : Z) :
  2 ≤ rails ≤ len text → RailFence.newline ∉ text →
  ∃ out,
    RailFence.encrypt text rails = Ok out ∧
    read_along (len text) text (rail_order rails (length text)) out.
Proof.
  intros Hrails Hnl. unfold RailFence.encrypt.
  destruct (Z.ltb_spec rails 2); [lia|].
  destruct (Z.ltb_spec (len text) rails); [lia|].
  unfold RailFence.create_fence.
  set (fence0 := replicate (Z.to_nat rails)
                   (replicate (length text) RailFence.newline)).
  assert (Hshape0 : grid_shape rails (len text) fence0)
    by (apply empty_fence_shape; lia).
  rewrite (zigzag_write_loop (RailFence.create_fence_step text rails) rails
             text fence0); [|lia| |done].
  2: { intros fence k v Hsh Hv. apply create_fence_step_writes; [lia|done..]. }
  rewrite !bind_Ok.
  set (zz := zigzag_cells rails (length text)).
  destruct (write_all_spec rails (len text) zz (NoDup_zigzag_cells _ _)
              ltac:(intros p Hp; apply zigzag_cells_in_fence; [lia|exact Hp])
              fence0 text Hshape0
              ltac:(unfold zz; by rewrite length_zigzag_cells))
    as (Hshape & Hset & Hkeep).
  set (fence := write_all fence0 zz text) in *.
  assert (Hval : ∀ p, p ∈ zz →
            ∃ v, text !! Z.to_nat p.2 = Some v ∧
                 grid_cell fence p.1 p.2 = Some v).
  { intros p Hp. pose proof Hp as Hp'.
    apply elem_of_zigzag_cells in Hp' as [Hc Hr].
    destruct (lookup_lt_is_Some_2 text (Z.to_nat p.2)) as [v Hv]; [lia|].
    exists v. split; [done|].
    apply (Hset (Z.to_nat p.2)); [|done].
    unfold zz. rewrite lookup_zigzag_cells by lia.
    destruct p as [r c]. simpl in *. rewrite Hr. f_equal. f_equal. lia. }
  rewrite (read_off_cells rails (len text) fence (λ p, p ∈ zz) Hshape).
  2: { intros p Hr Hc. split.
       - intros Hp. destruct (Hval p Hp) as (v & Hv & ->). simpl.
         intros ->. apply Hnl. by eapply list_elem_of_lookup_2.
       - intros Hne. destruct (decide (p ∈ zz)) as [|Hp]; [done|].
         exfalso. apply Hne. destruct p as [r c].
         rewrite Hkeep by (simpl in *; lia || done).
         unfold fence0. by rewrite empty_fence_cell. }
  eexists. split; [reflexivity|].
  change (filter (λ p, p ∈ zz) (row_major rails (len text)))
    with (rail_cells rails (length text)).
  unfold read_along, rail_order.
  apply Forall2_fmap, Forall_Forall2_diag, Forall_forall.
  intros p Hp. rewrite cell_index_row.
  rewrite (rail_cells_spec rails (length text)) in Hp by lia.
  destruct (Hval p Hp) as (v & Hv & ->). done.
Qed.

(** [decrypt] writes its text back along the rail order. *)
Lemma railfence_decrypt_spec (text : str) (rails : Z) :
  2 ≤ rails ≤ len text →
  ∃ out,
    RailFence.decrypt text rails = Ok out ∧
    len out = len text ∧
    read_along (len text) out (rail_order rails (length text)) text.
Proof.
  intros Hrails. unfold RailFence.decrypt.
  destruct (Z.ltb_spec rails 2); [lia|].
  destruct (Z.ltb_spec (len text) rails); [lia|].
  set (n := length text).
  set (fence0 := replicate (Z.to_nat rails) (replicate n RailFence.newline)).
  assert (Hshape0 : grid_shape rails (len text) fence0)
    by (apply empty_fence_shape; lia).
  set (zz := zigzag_cells rails n).
  assert (Hzz : ∀ p, p ∈ zz → 0 ≤ p.1 < rails ∧ 0 ≤ p.2 < len text).
  { intros p Hp. apply zigzag_cells_in_fence; [lia|exact Hp]. }
  (* Mark the zigzag pattern *)
  pose proof (zigzag_write_loop (RailFence.mark_step rails) rails
                (replicate n RailFence.star) fence0) as Hmark.
  unfold len in Hmark at 1 2 3. rewrite length_replicate in Hmark.
  change (Z.of_nat n) with (len text) in Hmark.
  rewrite Hmark; [|lia| |done].
  2: { intros fence k v Hsh Hv. apply lookup_replicate in Hv as [-> Hk].
       apply (mark_step_writes (len text)); [lia|done|unfold len; lia]. }
  clear Hmark. rewrite bind_Ok. fold zz.
  destruct (write_all_spec rails (len text) zz (NoDup_zigzag_cells _ _) Hzz
              fence0 (replicate n RailFence.star) Hshape0
              ltac:(unfold zz; by rewrite length_replicate, length_zigzag_cells))
    as (Hshape_m & Hset_m & Hkeep_m).
  set (fence_m := write_all fence0 zz (replicate n RailFence.star)) in *.
  (* Fill in the fence with the ciphertext *)
  destruct (row_major_spec rails (len text)) as [Hnd Hmem].
  cbv beta iota. rewrite railfence_fill_loops_flatten.
  rewrite (railfence_fill_writes text rails (len text) zz);
    [|done|by intros p Hp; apply Hmem|done| |].
  2: { intros p Hp. apply Hmem in Hp as [Hr Hc]. split.
       - intros Hp. apply list_elem_of_lookup in Hp as [k Hk].
         apply (Hset_m k); [done|].
         apply lookup_replicate_2. apply lookup_lt_Some in Hk.
         unfold zz in Hk. by rewrite length_zigzag_cells in Hk.
       - intros Hp. exists RailFence.newline. split; [|done].
         destruct p as [r c]. rewrite Hkeep_m by (simpl in *; lia || done).
         unfold fence0. apply empty_fence_cell; simpl in *; [lia|].
         unfold len in Hc. done. }
  2: { change (filter (λ p, p ∈ zz) (row_major rails (len text)))
         with (rail_cells rails n).
       rewrite length_rail_cells by lia. done. }
  change (filter (λ p, p ∈ zz) (row_major rails (len text)))
    with (rail_cells rails n).
  rewrite length_rail_cells by lia.
  rewrite bind_Ok. change (take n text) with (take (length text) text).
  rewrite firstn_all. cbv beta iota.
  assert (Hrnd : NoDup (rail_cells rails n)).
  { rewrite rail_cells_spec by lia. apply NoDup_zigzag_cells. }
  assert (Hrin : ∀ p, p ∈ rail_cells rails n →
                      0 ≤ p.1 < rails ∧ 0 ≤ p.2 < len text).
  { intros p Hp. rewrite rail_cells_spec in Hp by lia. by apply Hzz. }
  destruct (write_all_spec rails (len text) (rail_cells rails n) Hrnd Hrin
              fence_m text Hshape_m ltac:(by rewrite length_rail_cells by lia))
    as (Hshape_f & Hset_f & _).
  set (fence_f := write_all fence_m (rail_cells rails n) text) in *.
  (* Read off the plaintext *)
  destruct (railfence_read_loop fence_f rails n) as (out & st & Hread & Hout);
    [lia|done|].
  change (Z.of_nat n) with (len text) in Hread.
  rewrite Hread, bind_Ok. cbv beta iota.
  exists out. split; [done|].
  pose proof (Forall2_length _ _ _ Hout) as Hlo.
  rewrite length_zigzag_cells in Hlo.
  split; [unfold len; lia|].
  unfold read_along, rail_order. apply Forall2_fmap_l.
  apply Forall2_same_length_lookup_2.
  { by rewrite length_rail_cells by lia. }
  intros k p v Hk Hv. unfold compose. rewrite cell_index_row.
  assert (Hp : p ∈ zz).
  { unfold zz. rewrite <- (rail_cells_spec rails n) by lia.
    by eapply list_elem_of_lookup_2. }
  pose proof Hp as Hp'. apply elem_of_zigzag_cells in Hp' as [Hc Hr].
  assert (Hi : zz !! Z.to_nat p.2 = Some p).
  { unfold zz. rewrite lookup_zigzag_cells by lia.
    destruct p as [r c]. simpl in *. rewrite Hr. f_equal. f_equal. lia. }
  destruct (Forall2_lookup_l _ _ _ _ _ Hout Hi) as (v' & Hv' & Hcell).
  rewrite (Hset_f k p v Hk Hv) in Hcell. congruence.
Qed.

(** X27. Rail Fence round trip. For a text without ['\n'] and
    [2 ≤ rails ≤ len(text)], [encrypt] returns and [decrypt] of the
    ciphertext with the same number of rails returns the text, unchanged
    (case, spaces and punctuation included). *)
Theorem railfence_roundtrip (text : str) (rails : Z) :
  2 ≤ rails ≤ len text → RailFence.newline ∉ text →
  ∃ cipher,
    RailFence.encrypt text rails = Ok cipher ∧
    RailFence.decrypt cipher rails = Ok text.
Proof.
  intros Hrails Hnl.
  destruct (railfence_encrypt_spec text rails Hrails Hnl) as (cipher & Henc & Hrel).
  destruct (rail_order_spec rails (length text) ltac:(lia)) as [Hnd Hmem].
  pose proof (length_cells 1 (len text) _ ltac:(lia) Hnd Hmem ltac:(lia)) as Hlo.
  assert (Hlc : length cipher = length text).
  { apply Forall2_length in Hrel. unfold len in *. lia. }
  exists cipher. split; [done|].
  destruct (railfence_decrypt_spec cipher rails) as (out & -> & Hlen & Hread).
  { unfold len in *. lia. }
  unfold len in Hlen, Hread. rewrite Hlc in Hlen, Hread.
  f_equal.
  apply (read_along_unique 1 (len text) (rail_order rails (length text))
           ltac:(lia) Hmem out text cipher); [unfold len; lia|lia|done..].
Qed.

Lemma railfence_roundtrip_witness :
  ∃ cipher,
    RailFence.encrypt (lit "Hello, World!") 3 = Ok cipher ∧
    RailFence.decrypt cipher 3 = Ok (lit "Hello, World!").
Proof.
  apply (railfence_roundtrip (lit "Hello, World!") 3).
  - vm_compute. split; discriminate.
  - intros H. by repeat (apply elem_of_cons in H as [H|H]; [discriminate H|]);
      apply elem_of_nil in H.
Defined.

(** X28. Rail Fence [decrypt] either raises [ValueError], exactly when
    [rails < 2] or [rails > len(text)] (and then [encrypt] raises it too),
    or returns a rearrangement of its text, whatever the characters (also
    ['\n'] and ['*'], the two characters the fence uses as marks). *)
Theorem railfence_decrypt_cases (text : str) (rails : Z) :
  ((rails < 2 ∨ len text < rails) ∧
   RailFence.decrypt text rails = Raise ValueError ∧
   RailFence.encrypt text rails = Raise ValueError) ∨
  (2 ≤ rails ≤ len text ∧
   ∃ plain, RailFence.decrypt text rails = Ok plain ∧ plain ≡ₚ text).
Proof.
  destruct (decide (2 ≤ rails ≤ len text)) as [Hrails|Hbad]; [right|left].
  - split; [done|].
    destruct (railfence_decrypt_spec text rails Hrails) as (out & Hdec & Hlen & Hread).
    destruct (rail_order_spec rails (length text) ltac:(lia)) as [Hnd Hmem].
    exists out. split; [done|]. symmetry.
    apply (read_along_Permutation 1 (len text) (rail_order rails (length text))
             ltac:(lia) Hnd Hmem); [lia|done].
  - split; [lia|]. unfold RailFence.decrypt, RailFence.encrypt.
    destruct (Z.ltb_spec rails 2); [done|].
    destruct (Z.ltb_spec (len text) rails); [done|lia].
Qed.

(** X29. Rail Fence, the other way round: a ciphertext without ['\n'] is
    got back by encrypting its decryption with the same number of rails. *)
Theorem railfence_decrypt_then_encrypt (cipher : str) (rails : Z) :
  2 ≤ rails ≤ len cipher → RailFence.newline ∉ cipher →
  ∃ plain,
    RailFence.decrypt cipher rails = Ok plain ∧
    RailFence.encrypt plain rails = Ok cipher.
Proof.
  intros Hrails Hnl.
  destruct (railfence_decrypt_spec cipher rails Hrails)
    as (plain & Hdec & Hlen & Hread).
  destruct (rail_order_spec rails (length cipher) ltac:(lia)) as [Hnd Hmem].
  assert (Hperm : cipher ≡ₚ plain).
  { apply (read_along_Permutation 1 (len cipher)
             (rail_order rails (length cipher)) ltac:(lia) Hnd Hmem);
      [lia|done]. }
  exists plain. split; [done|].
  destruct (railfence_encrypt_spec plain rails) as (out & -> & Hrel).
  { lia. }
  { by rewrite <- Hperm. }
  assert (Hlp : length plain = length cipher) by (unfold len in Hlen; lia).
  unfold len in Hrel. rewrite Hlp in Hrel. f_equal.
  by apply (read_along_functional (len cipher) plain
              (rail_order rails (length cipher))).
Qed.

Lemma railfence_decrypt_then_encrypt_witness :
  ∃ plain,
    RailFence.decrypt (lit "HORELWLOD") 3 = Ok plain ∧
    RailFence.encrypt plain 3 = Ok (lit "HORELWLOD").
Proof.
  apply (railfence_decrypt_then_encrypt (lit "HORELWLOD") 3).
  - vm_compute. split; discriminate.
  - intros H. by repeat (apply elem_of_cons in H as [H|H]; [discriminate H|]);
      apply elem_of_nil in H.
Defined.

(** * Myszkowski: the column groups *)

Lemma group_append_keys (groups : list (ascii * list Z)) (c : ascii) (i : Z)
    (x : ascii) :
  x ∈ (Myszkowski.group_append groups c i).*1 ↔ x = c ∨ x ∈ groups.*1.
Proof.
  induction groups as [|[k v] groups IH].
  - simpl. rewrite list_elem_of_singleton, elem_of_nil. tauto.
  - cbn [Myszkowski.group_append].
    destruct (Ascii.eqb_spec k c) as [->|Hne].
    + rewrite !fmap_cons, !elem_of_cons. simpl. tauto.
    + rewrite !fmap_cons, !elem_of_cons, IH. simpl. tauto.
Qed.

Lemma group_append_NoDup (groups : list (ascii * list Z)) (c : ascii) (i : Z) :
  NoDup groups.*1 → NoDup (Myszkowski.group_append groups c i).*1.
Proof.
  induction groups as [|[k v] groups IH]; intros Hnd.
  - simpl. apply NoDup_singleton.
  - cbn [Myszkowski.group_append]. rewrite fmap_cons in Hnd.
    apply NoDup_cons in Hnd as [Hk Hnd]. simpl in Hk.
    destruct (Ascii.eqb_spec k c) as [->|Hne].
    + rewrite fmap_cons. by apply NoDup_cons.
    + rewrite fmap_cons. apply NoDup_cons. split; [|by apply IH].
      simpl. rewrite group_append_keys. intros [->|?]; done.
Qed.

(** After [groups[char].append(i)] the entry of [char] is its old list (or
    the empty list of the [defaultdict]) followed by [i]; the other
    entries are as before. *)
Lemma group_append_elem (groups : list (ascii * list Z)) (c : ascii) (i : Z)
    (ch : ascii) (cols : list Z) :
  NoDup groups.*1 →
  (ch, cols) ∈ Myszkowski.group_append groups c i ↔
  (ch ≠ c ∧ (ch, cols) ∈ groups) ∨
  (ch = c ∧ ∃ v, cols = v ++ [i] ∧
                 ((c, v) ∈ groups ∨ (v = [] ∧ c ∉ groups.*1))).
Proof.
  induction groups as [|[k v0] groups IH]; intros Hnd.
  - simpl. rewrite list_elem_of_singleton. split.
    + intros [= -> ->]. right. split; [done|]. exists []. split; [done|].
      right. split; [done|]. apply not_elem_of_nil.
    + intros [[_ H]|[-> (v & -> & [H|[-> _]])]];
        [by apply elem_of_nil in H|by apply elem_of_nil in H|done].
  - rewrite fmap_cons in Hnd. apply NoDup_cons in Hnd as [Hk Hnd].
    simpl in Hk. specialize (IH Hnd).
    assert (Hfresh : ∀ w, (k, w) ∉ groups).
    { intros w Hw. apply Hk. apply list_elem_of_fmap. by exists (k, w). }
    cbn [Myszkowski.group_append].
    destruct (Ascii.eqb_spec k c) as [->|Hne].
    + rewrite !elem_of_cons. split.
      * intros [[= -> ->]|Hin].
        -- right. split; [done|]. exists v0. split; [done|]. left. by left.
        -- left. split; [|by right]. intros ->. by apply (Hfresh cols).
      * intros [[Hne [[= -> ->]|Hin]]|[-> (v & -> & [Hin|[-> Hnot]])]].
        -- done.
        -- by right.
        -- apply elem_of_cons in Hin as [[= ->]|Hin]; [by left|].
           by apply Hfresh in Hin.
        -- exfalso. apply Hnot. rewrite fmap_cons. left.
    + rewrite elem_of_cons, IH. split.
      * intros [[= -> ->]|[[Hc Hin]|[-> (v & -> & [Hin|[-> Hnot]])]]].
        -- left. split; [done|left].
        -- left. split; [done|by right].
        -- right. split; [done|]. exists v. split; [done|]. left. by right.
        -- right. split; [done|]. exists []. split; [done|]. right.
           split; [done|]. rewrite fmap_cons, not_elem_of_cons. done.
      * intros [[Hc Hin]|[-> (v & -> & [Hin|[-> Hnot]])]].
        -- apply elem_of_cons in Hin as [Hin|Hin]; [by left|].
           right. left. done.
        -- apply elem_of_cons in Hin as [[= -> ->]|Hin]; [done|].
           right. right. split; [done|]. exists v. split; [done|by left].
        -- right. right. split; [done|]. exists []. split; [done|]. right.
           split; [done|]. rewrite fmap_cons, not_elem_of_cons in Hnot.
           by destruct Hnot.
Qed.

Lemma key_columns_snoc {A} (key : str) (seen : list A) (x : A)
    (c ch : ascii) :
  key !! length seen = Some c →
  key_columns key (len (seen ++ [x])) ch
  = key_columns key (len seen) ch
    ++ (if decide (ch = c) then [len seen] else []).
Proof.
  intros Hn. unfold key_columns, range, len. rewrite length_app. simpl.
  replace (Z.of_nat (length seen + 1) - 0) with (Z.of_nat (S (length seen)))
    by lia.
  rewrite Z.sub_0_r, seqZ_S, filter_app, Z.add_0_l. f_equal.
  rewrite filter_cons, filter_nil, Nat2Z.id, Hn.
  destruct (decide (ch = c)) as [->|Hne].
  - by rewrite decide_True.
  - rewrite decide_False; [done|]. intros [= ->]. done.
Qed.

Lemma key_columns_nonempty (key : str) (ch : ascii) :
  key_columns key (len key) ch ≠ [] ↔ ch ∈ key.
Proof.
  unfold key_columns. split.
  - intros Hne.
    destruct (filter _ (range 0 (len key))) as [|i rest] eqn:E; [done|].
    assert (Hi : i ∈ filter (λ i, key !! Z.to_nat i = Some ch)
                    (range 0 (len key))) by (rewrite E; left).
    apply list_elem_of_filter in Hi as [Hi _].
    by eapply list_elem_of_lookup_2.
  - intros Hin. apply list_elem_of_lookup in Hin as [i Hi].
    assert (Hf : Z.of_nat i ∈ filter (λ i, key !! Z.to_nat i = Some ch)
                   (range 0 (len key))).
    { apply list_elem_of_filter. rewrite Nat2Z.id. split; [done|].
      apply elem_of_range. apply lookup_lt_Some in Hi. unfold len. lia. }
    intros E. rewrite E in Hf. by apply elem_of_nil in Hf.
Qed.

(** The groups built by the loop of [get_column_groups]: one entry per
    letter of the key, holding the columns of that letter in ascending
    order. *)
Lemma column_groups_loop (key : str) :
  let groups :=
    fold_left (λ groups '(i, char), Myszkowski.group_append groups char i)
      (enumerate key) [] in
  NoDup groups.*1 ∧
  ∀ ch cols, (ch, cols) ∈ groups ↔
             cols ≠ [] ∧ cols = key_columns key (len key) ch.
Proof.
  cbv zeta.
  assert (Hlen : len key = len (enumerate key)).
  { unfold len. by rewrite <- (length_fmap snd (enumerate key)), snd_enumerate. }
  rewrite Hlen.
  apply (fold_left_inv
           (λ groups '(i, char), Myszkowski.group_append groups char i)
           (λ seen groups,
              NoDup groups.*1 ∧
              ∀ ch cols, (ch, cols) ∈ groups ↔
                         cols ≠ [] ∧ cols = key_columns key (len seen) ch)).
  - split; [apply NoDup_nil_2|]. intros ch cols. split.
    + intros H. by apply elem_of_nil in H.
    + intros [Hne ->]. done.
  - intros seen [i c] groups Hpre [Hnd Hinv].
    apply enumerate_prefix_snoc in Hpre as [-> Hc].
    split; [by apply group_append_NoDup|]. intros ch cols.
    rewrite group_append_elem by done.
    rewrite (key_columns_snoc key seen _ c ch Hc).
    assert (Hkey : c ∈ groups.*1 ↔ key_columns key (len seen) c ≠ []).
    { split.
      - intros Hin. apply list_elem_of_fmap in Hin as ([k v] & -> & Hin).
        apply Hinv in Hin as [Hne Hv]. simpl. by rewrite <- Hv.
      - intros Hne. apply list_elem_of_fmap.
        exists (c, key_columns key (len seen) c). split; [done|].
        by apply Hinv. }
    destruct (decide (ch = c)) as [->|Hne].
    + split.
      * intros [[? _]|[_ (v & -> & [Hin|[-> Hnot]])]]; [done| |].
        -- apply Hinv in Hin as [_ <-]. split; [|done].
           intros E. by apply app_eq_nil in E as [_ ?].
        -- split; [done|].
           destruct (key_columns key (len seen) c) eqn:E; [done|].
           exfalso. by apply Hnot, Hkey.
      * intros [_ ->]. right. split; [done|].
        exists (key_columns key (len seen) c). split; [done|].
        destruct (key_columns key (len seen) c) eqn:E.
        -- right. split; [done|]. rewrite Hkey. by intros H.
        -- left. by apply Hinv.
    + rewrite app_nil_r, Hinv. split.
      * intros [[_ ?]|[? _]]; done.
      * intros ?. by left.
Qed.

Lemma item_le_total : Total Myszkowski.item_le.
Proof. intros p q. unfold Myszkowski.item_le. lia. Qed.

Lemma item_le_trans : Transitive Myszkowski.item_le.
Proof. intros p q r. unfold Myszkowski.item_le. lia. Qed.

Lemma StronglySorted_lookup {A} (R : relation A) (l : list A) (i j : nat)
    (a b : A) :
  StronglySorted R l → l !! i = Some a → l !! j = Some b → (i < j)%nat →
  R a b.
Proof.
  intros Hs. revert i j. induction Hs as [|x l _ IH Hall]; intros i j Hi Hj Hlt.
  - done.
  - destruct j as [|j]; [lia|]. destruct i as [|i].
    + injection Hi as <-. simpl in Hj.
      rewrite Forall_forall in Hall. apply Hall.
      by eapply list_elem_of_lookup_2.
    + simpl in Hi, Hj. apply (IH i j); [done..|lia].
Qed.

Lemma ord_inj (a b : ascii) : ord a = ord b → a = b.
Proof.
  unfold ord. intros E. apply N2Z.inj in E.
  by rewrite <- (ascii_N_embedding a), <- (ascii_N_embedding b), E.
Qed.

(** X30. The column groups of Myszkowski. [get_column_groups] has one
    entry per distinct character of the key (as given: no case folding),
    the entries in strictly ascending order of the character code, and
    the entry of a character lists all columns that bear it, in ascending
    order. *)
Theorem myszkowski_column_groups (key : str) :
  (∀ (i j : nat) a b,
     Myszkowski.get_column_groups key !! i = Some a →
     Myszkowski.get_column_groups key !! j = Some b →
     (i < j)%nat → ord a.1 < ord b.1) ∧
  (∀ ch cols,
     (ch, cols) ∈ Myszkowski.get_column_groups key ↔
     ch ∈ key ∧ cols = key_columns key (len key) ch).
Proof.
  destruct (column_groups_loop key) as [Hnd Hmem]. cbv zeta in Hnd, Hmem.
  set (groups := fold_left _ (enumerate key) []) in *.
  assert (Hperm : Myszkowski.get_column_groups key ≡ₚ groups).
  { unfold Myszkowski.get_column_groups. apply merge_sort_Permutation. }
  assert (Hs : StronglySorted Myszkowski.item_le
                 (Myszkowski.get_column_groups key)).
  { unfold Myszkowski.get_column_groups.
    apply (@StronglySorted_merge_sort _ _ _ item_le_trans item_le_total). }
  split.
  - intros i j a b Hi Hj Hlt.
    pose proof (StronglySorted_lookup _ _ _ _ _ _ Hs Hi Hj Hlt) as Hle.
    unfold Myszkowski.item_le in Hle.
    destruct (decide (ord a.1 = ord b.1)) as [E|]; [|lia].
    exfalso. apply ord_inj in E.
    assert (i = j); [|lia].
    apply (NoDup_lookup (Myszkowski.get_column_groups key).*1 i j a.1).
    + by rewrite Hperm.
    + by rewrite list_lookup_fmap, Hi.
    + by rewrite list_lookup_fmap, Hj, E.
  - intros ch cols. rewrite Hperm, Hmem. split.
    + intros [Hne ->]. split; [|done]. by apply key_columns_nonempty.
    + intros [Hin ->]. split; [|done]. by apply key_columns_nonempty.
Qed.
